(** * Secure web gateway: the blocklist proxy of [proxy/main.go]

    A shallow embedding of the proxy server of
    [week2-secure-web-gateway/proxy/main.go] and the properties of its
    blocklist store, domain matcher, policy refresh and request dispatcher.

    Modelling conventions.
    - A Go [string] is a sequence of bytes: Rocq's [string].
    - [map[string]bool] is a [gmap string bool]; reading a missing key gives
      Go's zero value [false].
    - The proxy is modelled sequentially: [blocklistMutex] serialises the
      readers and the writer and is not represented.
    - The network is an input: one policy fetch is a [FetchResult], and the
      forwarding engine's effect on the response is a function of the
      request.
    - The handler runs in a small state monad over the response writer, the
      log and the record of the calls it has made. *)

From stdpp Require Import base option list strings gmap fin_maps.
From Stdlib Require Import Ascii ZArith Lia.

(** ** Go's [strings] package, as far as the proxy uses it *)

(** One byte as a one-character string. *)
Definition byte (n : nat) : string := String (ascii_of_nat n) EmptyString.

(** The double quote character. *)
Definition dq : string := byte 34.

Definition colon : ascii := ascii_of_nat 58.
Definition dot : ascii := ascii_of_nat 46.

(** [strings.ToLower] on ASCII text, byte by byte: the letters [A]..[Z]
    (65..90) move to [a]..[z] and every other byte is kept. On a string
    with a byte of 128 or more the Go function works on runes instead (it
    lowers the letters of other alphabets and rewrites invalid UTF-8), and
    this definition is not that function; the statements that depend on
    what lowering does to such strings are made for the definitions below
    that take the lowering function as a parameter. *)
Definition lowerByte (c : ascii) : ascii :=
  let n := nat_of_ascii c in
  if ((65 <=? n) && (n <=? 90))%nat then ascii_of_nat (n + 32) else c.

Fixpoint ToLower (s : string) : string :=
  match s with
  | EmptyString => EmptyString
  | String c s' => String (lowerByte c) (ToLower s')
  end.

(** [strings.Split(s, sep)] for a separator of one byte, the only kind the
    proxy passes ([":"] and ["."]). The result is never empty: a string
    without the separator gives the one-element list of the string
    itself. *)
Fixpoint Split (s : string) (sep : ascii) : list string :=
  match s with
  | EmptyString => [EmptyString]
  | String c s' =>
      if Ascii.eqb c sep then EmptyString :: Split s' sep
      else match Split s' sep with
           | x :: xs => String c x :: xs
           | [] => [String c EmptyString]
           end
  end.

(** [strings.Join(elems, sep)]. *)
Fixpoint Join (elems : list string) (sep : string) : string :=
  match elems with
  | [] => EmptyString
  | [x] => x
  | x :: rest => x +:+ sep +:+ Join rest sep
  end.

(** ** The proxy server *)

(** [PolicyResponse]: the decoded policy document. *)
Record PolicyResponse := { Blocked : list string }.

(** [ProxyServer], without its mutex. *)
Record ProxyServer := {
  blocklist : gmap string bool;
  policyURL : string
}.

Definition NewProxyServer (url : string) : ProxyServer :=
  {| blocklist := ∅; policyURL := url |}.

(** The map read [ps.blocklist[k]]. *)
Definition blocklistAt (ps : ProxyServer) (k : string) : bool :=
  default false (blocklist ps !! k).

(** The [error] values [UpdateBlocklist] builds with [fmt.Errorf]. *)
Inductive error :=
| ErrFetch (e : string)
| ErrStatus (code : Z)
| ErrDecode (e : string).

(** Lines written with [log.Printf] and [log.Println]. *)
Inductive LogLine :=
| LogBlockedDomain (domain : string)
| LogBlocklistUpdated (n : nat)
| LogUpdating
| LogErrorUpdating (err : error)
| LogRequest (method host remoteAddr : string)
| LogBLOCKED (host : string)
| LogALLOWED (host : string)
| LogErrorCreatingRequest
| LogErrorForwardingRequest.

(** *** UpdateBlocklist *)

(** What the network gives one call of [UpdateBlocklist]: [http.Get] fails,
    or it answers with a status code and a body that [Decode] rejects or
    turns into a [PolicyResponse]. *)
Inductive Body :=
| Malformed (e : string)
| Document (policy : PolicyResponse).

Inductive FetchResult :=
| GetFailed (e : string)
| Response (StatusCode : Z) (body : Body).

Definition StatusOK : Z := 200%Z.
Definition StatusForbidden : Z := 403%Z.

(** The loop [for _, domain := range policy.Blocked], on the map it
    rebuilds and the lines it logs. *)
Fixpoint rebuild (domains : list string) (m : gmap string bool)
  : gmap string bool * list LogLine :=
  match domains with
  | [] => (m, [])
  | domain :: rest =>
      let m' := <[ToLower domain := true]> m in
      let '(m'', lines) := rebuild rest m' in
      (m'', LogBlockedDomain domain :: lines)
  end.

(** [UpdateBlocklist]: the server afterwards, the returned error ([None]
    for [nil]) and the lines logged. *)
Definition UpdateBlocklist (ps : ProxyServer) (fr : FetchResult)
  : ProxyServer * option error * list LogLine :=
  match fr with
  | GetFailed e => (ps, Some (ErrFetch e), [])
  | Response code body =>
      if negb (code =? StatusOK)%Z then (ps, Some (ErrStatus code), [])
      else match body with
           | Malformed e => (ps, Some (ErrDecode e), [])
           | Document policy =>
               let '(m, lines) := rebuild (Blocked policy) ∅ in
               ({| blocklist := m; policyURL := policyURL ps |}, None,
                lines ++ [LogBlocklistUpdated (size m)])
           end
  end.

(** [StartPeriodicUpdate]: the body of the goroutine, run over the fetches
    that the successive ticks meet. An error is logged and the loop goes
    on to the next tick. *)
Fixpoint periodicUpdate (ps : ProxyServer) (ticks : list FetchResult)
  : ProxyServer * list LogLine :=
  match ticks with
  | [] => (ps, [])
  | fr :: rest =>
      let '(ps', err, lines) := UpdateBlocklist ps fr in
      let errLines :=
        match err with
        | Some e => [LogErrorUpdating e]
        | None => []
        end in
      let '(ps'', later) := periodicUpdate ps' rest in
      (ps'', LogUpdating :: lines ++ errLines ++ later)
  end.

(** *** IsBlocked *)

(** Lines 87-88: the text before the first [":"], in lower case. [Split]
    never gives the empty slice, so the index [0] is always in range and
    the default of [hd] is never used. *)
Definition hostDomain (host : string) : string :=
  ToLower (hd EmptyString (Split host colon)).

(** The loop [for i := 1; i < len(parts); i++], with [n] iterations left
    from index [i]. *)
Fixpoint parentLoop (ps : ProxyServer) (parts : list string) (i n : nat)
  : bool :=
  match n with
  | O => false
  | S n' =>
      let parentDomain := Join (drop i parts) "." in
      if blocklistAt ps parentDomain then true
      else parentLoop ps parts (S i) n'
  end.

Definition IsBlocked (ps : ProxyServer) (host : string) : bool :=
  let domain := hostDomain host in
  if blocklistAt ps domain then true
  else
    let parts := Split domain dot in
    parentLoop ps parts 1 (length parts - 1).

(** *** The response writer and the handler monad *)

(** [http.Header]. *)
Abbreviation Header := (gmap string (list string)).

(** An [http.ResponseWriter]: the header map, the status code once it is
    written, and the body written so far. *)
Record ResponseWriter := {
  header : Header;
  statusCode : option Z;
  written : string
}.

Definition newResponseWriter : ResponseWriter :=
  {| header := ∅; statusCode := None; written := EmptyString |}.

Record URL := {
  url_Host : string;
  url_Path : string;
  url_RawQuery : string
}.

(** The fields of [http.Request] that the handler reads. *)
Record Request := {
  Method : string;
  Host : string;
  RequestURL : URL;
  RequestHeader : Header;
  RemoteAddr : string
}.

(** The calls the dispatcher makes, in order; a record kept beside the
    program state to state which component a request has reached. *)
Inductive Call :=
| CallIsBlocked (host : string) (result : bool)
| CallServeBlockedPage (host : string)
| CallForwardRequest (r : Request).

(** One request being served: its response writer, the log and the calls
    made so far. *)
Record Exchange := {
  w : ResponseWriter;
  logged : list LogLine;
  calls : list Call
}.

Definition newExchange : Exchange :=
  {| w := newResponseWriter; logged := []; calls := [] |}.

Definition Handler (A : Type) : Type := Exchange → A * Exchange.

#[global] Instance Handler_ret : MRet Handler := λ A (a : A) ex, (a, ex).
#[global] Instance Handler_bind : MBind Handler :=
  λ A B (f : A → Handler B) (m : Handler A) ex,
    let '(a, ex') := m ex in f a ex'.

Definition logPrintf (l : LogLine) : Handler unit :=
  λ ex, (tt, {| w := w ex; logged := logged ex ++ [l]; calls := calls ex |}).

Definition called (c : Call) : Handler unit :=
  λ ex, (tt, {| w := w ex; logged := logged ex; calls := calls ex ++ [c] |}).

Definition onWriter (f : ResponseWriter → ResponseWriter) : Handler unit :=
  λ ex, (tt, {| w := f (w ex); logged := logged ex; calls := calls ex |}).

(** [w.Header().Set(key, value)]. *)
Definition HeaderSet (key value : string) (rw : ResponseWriter)
  : ResponseWriter :=
  {| header := <[key := [value]]> (header rw);
     statusCode := statusCode rw;
     written := written rw |}.

(** [w.Header().Add(key, value)]. *)
Definition HeaderAdd (key value : string) (rw : ResponseWriter)
  : ResponseWriter :=
  {| header := <[key := default [] (header rw !! key) ++ [value]]> (header rw);
     statusCode := statusCode rw;
     written := written rw |}.

(** [w.WriteHeader(code)] for a final status code, from 200 to 999: the
    first status written stands. The net/http package panics on a code
    below 100 or above 999 and sends a code from 100 to 199 as an
    informational header; the handler passes 403, 500, 502 or the code of
    the upstream, and what is stated of an upstream code is stated for the
    codes from 200 to 999. *)
Definition WriteHeader (code : Z) (rw : ResponseWriter) : ResponseWriter :=
  {| header := header rw;
     statusCode := Some (default code (statusCode rw));
     written := written rw |}.

(** [w.Write]: writes the status 200 first when none was written. *)
Definition Write (data : string) (rw : ResponseWriter) : ResponseWriter :=
  {| header := header rw;
     statusCode := Some (default StatusOK (statusCode rw));
     written := written rw +:+ data |}.

(** *** serveBlockedPage *)

(** The format string of [serveBlockedPage] up to its [%s], with each
    [%%] printed as one percent sign. *)
Definition blockPagePrefix : string :=
  "<!DOCTYPE html>
<html>
<head>
    <title>Access Denied</title>
    <style>
        body {
            font-family: Arial, sans-serif;
            background: linear-gradient(135deg, #667eea 0%, #764ba2 100%);
            display: flex;
            justify-content: center;
            align-items: center;
            height: 100vh;
            margin: 0;
        }
        .container {
            background: white;
            padding: 40px;
            border-radius: 10px;
            box-shadow: 0 10px 40px rgba(0,0,0,0.3);
            text-align: center;
            max-width: 500px;
        }
        h1 {
            color: #e74c3c;
            margin-top: 0;
        }
        .blocked-icon {
            font-size: 72px;
            color: #e74c3c;
        }
        .domain {
            background: #f8f9fa;
            padding: 10px;
            border-radius: 5px;
            margin: 20px 0;
            font-family: monospace;
            word-break: break-all;
        }
    </style>
</head>
<body>
    <div class="
  +:+ dq
  +:+ "container"
  +:+ dq
  +:+ ">
        <div class="
  +:+ dq
  +:+ "blocked-icon"
  +:+ dq
  +:+ ">"
  +:+ byte 195
  +:+ byte 176
  +:+ byte 197
  +:+ byte 184
  +:+ byte 197
  +:+ byte 161
  +:+ byte 194
  +:+ byte 171
  +:+ "</div>
        <h1>Access Denied by Cisco Security</h1>
        <p>The website you are trying to access has been blocked by your organization's security policy.</p>
        <div class="
  +:+ dq
  +:+ "domain"
  +:+ dq
  +:+ ">".

(** The format string after its [%s]. *)
Definition blockPageSuffix : string :=
  "</div>
        <p><small>If you believe this is an error, please contact your IT administrator.</small></p>
    </div>
</body>
</html>".

(** [fmt.Sprintf] of the format string with [host]: [%s] prints the
    string as it is. *)
Definition blockedPageHTML (host : string) : string :=
  blockPagePrefix +:+ host +:+ blockPageSuffix.

Definition serveBlockedPage (host : string) : Handler unit :=
  called (CallServeBlockedPage host) ;;
  onWriter (HeaderSet "Content-Type" "text/html; charset=utf-8") ;;
  onWriter (WriteHeader StatusForbidden) ;;
  onWriter (Write (blockedPageHTML host)).

(** *** forwardRequest and ServeHTTP *)

(** What the outbound leg of [forwardRequest] meets: [http.NewRequest]
    rejects the target URL, [client.Do] fails, or the upstream answers;
    [respHeader] is [resp.Header], whose keys the net/http package has
    put in canonical form, and [respBody] is the bytes that [resp.Body]
    yields. *)
Inductive RoundTrip :=
| NewRequestError
| DoError
| Upstream (StatusCode : Z) (respHeader : Header) (respBody : string).

Definition StatusInternalServerError : Z := 500%Z.
Definition StatusBadGateway : Z := 502%Z.

(** [http.Error(w, msg, code)]. *)
Definition httpError (msg : string) (code : Z) (rw : ResponseWriter)
  : ResponseWriter :=
  Write (msg +:+ byte 10)
    (WriteHeader code
       (HeaderSet "X-Content-Type-Options" "nosniff"
          (HeaderSet "Content-Type" "text/plain; charset=utf-8" rw))).

(** The loop that copies the response headers with [w.Header().Add]. *)
Definition copyHeader (src : Header) (rw : ResponseWriter) : ResponseWriter :=
  map_fold (λ key values acc, foldl (λ acc' v, HeaderAdd key v acc') acc values)
           rw src.

Section Dispatcher.

(** The network and the upstream servers, as met by the outbound request
    built from an inbound one. *)
Variable network : Request → RoundTrip.

Definition forwardRequest (r : Request) : Handler unit :=
  called (CallForwardRequest r) ;;
  match network r with
  | NewRequestError =>
      onWriter (httpError "Error creating proxy request"
                          StatusInternalServerError) ;;
      logPrintf LogErrorCreatingRequest
  | DoError =>
      onWriter (httpError "Error forwarding request" StatusBadGateway) ;;
      logPrintf LogErrorForwardingRequest
  | Upstream code hdr body =>
      onWriter (copyHeader hdr) ;;
      onWriter (WriteHeader code) ;;
      onWriter (Write body)
  end.

(** The call [ps.IsBlocked(host)], with its result put on record. *)
Definition callIsBlocked (ps : ProxyServer) (host : string) : Handler bool :=
  let result := IsBlocked ps host in
  called (CallIsBlocked host result) ;; mret result.

(** Lines 109-112: [r.Host], or [r.URL.Host] when that is empty. *)
Definition requestHost (r : Request) : string :=
  if decide (Host r = EmptyString) then url_Host (RequestURL r) else Host r.

Definition ServeHTTP (ps : ProxyServer) (r : Request) : Handler unit :=
  let host := requestHost r in
  logPrintf (LogRequest (Method r) host (RemoteAddr r)) ;;
  blocked ← callIsBlocked ps host ;
  if (blocked : bool) then
    logPrintf (LogBLOCKED host) ;;
    serveBlockedPage host
  else
    logPrintf (LogALLOWED host) ;;
    forwardRequest r.

(** The exchange after the server has handled [r] on a fresh response
    writer. *)
Definition serve (ps : ProxyServer) (r : Request) : Exchange :=
  snd (ServeHTTP ps r newExchange).

End Dispatcher.

(** ** The claims' own words *)

(** [containsByte c s]: the byte [c] occurs in [s]. *)
Fixpoint containsByte (c : ascii) (s : string) : bool :=
  match s with
  | EmptyString => false
  | String a s' => Ascii.eqb a c || containsByte c s'
  end.

(** [s] is a right-hand label suffix of [d]: [d] itself, or what follows
    one of its dots. *)
Definition labelSuffix (s d : string) : Prop :=
  s = d ∨ ∃ p, d = p +:+ "." +:+ s.

(** A status code of the success class. *)
Definition successStatus (code : Z) : Prop := (200 ≤ code < 300)%Z.

(** A fetch that fails: the GET errors, the status is not a success
    status, or the body does not decode. *)
Definition fetchFails (fr : FetchResult) : Prop :=
  match fr with
  | GetFailed _ => True
  | Response code body =>
      ¬ successStatus code ∨ (∃ e, body = Malformed e)
  end.

(** The characters that open or close markup: the angle brackets and the
    two quotes. Escaped text ([&lt;], [&#34;], ...) holds none of them. *)
Definition htmlSpecial (c : ascii) : bool :=
  bool_decide (c ∈ [ascii_of_nat 60; ascii_of_nat 62;
                    ascii_of_nat 34; ascii_of_nat 39]).

(** Text that holds none of these characters. *)
Fixpoint htmlSafe (s : string) : bool :=
  match s with
  | EmptyString => true
  | String c s' => negb (htmlSpecial c) && htmlSafe s'
  end.

(** A status code of the client-error class. *)
Definition clientError (code : option Z) : Prop :=
  ∃ c, code = Some c ∧ (400 ≤ c < 500)%Z.

(** The servers that the program can hold: the new one, with the empty
    blocklist, and the ones that calls of [UpdateBlocklist] lead to. *)
Inductive reachable : ProxyServer → Prop :=
| reachable_new url : reachable (NewProxyServer url)
| reachable_update ps fr :
    reachable ps → reachable (UpdateBlocklist ps fr).1.1.

(** ** Servers and requests used as examples *)

(** The server whose blocklist is the one entry [facebook.com]. *)
Definition facebookOnly : ProxyServer :=
  {| blocklist := {[ "facebook.com" := true ]};
     policyURL := "http://localhost:8000/policy" |}.

(** The server after a first successful refresh with the domain list [L]. *)
Definition installed (L : list string) : ProxyServer :=
  (UpdateBlocklist (NewProxyServer "http://localhost:8000/policy")
     (Response StatusOK (Document {| Blocked := L |}))).1.1.

(** A [GET /] request for [host], as a proxy client sends it. *)
Definition getRequest (host : string) : Request :=
  {| Method := "GET";
     Host := host;
     RequestURL := {| url_Host := host; url_Path := "/";
                      url_RawQuery := EmptyString |};
     RequestHeader := ∅;
     RemoteAddr := "127.0.0.1:50000" |}.

(** A network on which every outbound request fails in [client.Do]. *)
Definition unreachable : Request → RoundTrip := λ _, DoError.

(** ** The rest of the proxy *)

(** The fetches that get [UpdateBlocklist] past its three error returns:
    status 200 and a body that decodes. *)
Definition refreshOK (fr : FetchResult) : bool :=
  match fr with
  | Response code (Document _) => (code =? StatusOK)%Z
  | _ => false
  end.

(** *** The matcher and the refresh for any lowering function

    [strings.ToLower] belongs to the Go library. The definitions below are
    [IsBlocked] and [UpdateBlocklist] word for word, with that function as
    the parameter [lower]: what is proved of them for every [lower] holds
    of the program on every string, ASCII or not. At [lower := ToLower]
    they are the definitions above. *)

Definition hostDomainWith (lower : string → string) (host : string)
  : string :=
  lower (hd EmptyString (Split host colon)).

Definition IsBlockedWith (lower : string → string) (ps : ProxyServer)
    (host : string) : bool :=
  let domain := hostDomainWith lower host in
  if blocklistAt ps domain then true
  else
    let parts := Split domain dot in
    parentLoop ps parts 1 (length parts - 1).

Fixpoint rebuildWith (lower : string → string) (domains : list string)
    (m : gmap string bool) : gmap string bool * list LogLine :=
  match domains with
  | [] => (m, [])
  | domain :: rest =>
      let m' := <[lower domain := true]> m in
      let '(m'', lines) := rebuildWith lower rest m' in
      (m'', LogBlockedDomain domain :: lines)
  end.

Definition UpdateBlocklistWith (lower : string → string)
    (ps : ProxyServer) (fr : FetchResult)
  : ProxyServer * option error * list LogLine :=
  match fr with
  | GetFailed e => (ps, Some (ErrFetch e), [])
  | Response code body =>
      if negb (code =? StatusOK)%Z then (ps, Some (ErrStatus code), [])
      else match body with
           | Malformed e => (ps, Some (ErrDecode e), [])
           | Document policy =>
               let '(m, lines) := rebuildWith lower (Blocked policy) ∅ in
               ({| blocklist := m; policyURL := policyURL ps |}, None,
                lines ++ [LogBlocklistUpdated (size m)])
           end
  end.

(** A string of decimal digits. *)
Fixpoint allDigits (s : string) : bool :=
  match s with
  | EmptyString => true
  | String c s' =>
      (48 <=? nat_of_ascii c)%nat && (nat_of_ascii c <=? 57)%nat
      && allDigits s'
  end.

(** A port: one or more decimal digits. *)
Definition isPort (s : string) : bool :=
  match s with
  | EmptyString => false
  | _ => allDigits s
  end.

(** Following the spec's words (section 4.2, step 1, "strip a trailing
    [:port] if present"): the host without its last colon and the port
    after it. *)
Definition stripTrailingPort (host : string) : string :=
  let parts := Split host colon in
  match last parts with
  | Some port =>
      if (1 <? length parts)%nat && isPort port
      then Join (take (length parts - 1) parts) ":"
      else host
  | None => host
  end.

(** The lines that [main] logs itself, and those of the first refresh. *)
Inductive MainLine :=
| MainBanner
| MainStarting (port : string)
| MainPolicyEngine (url : string)
| MainInterval (minutes : Z)
| MainLoading
| MainUpdate (l : LogLine)
| MainWarning (err : error)
| MainRetryNote
| MainListening (port : string)
| MainConfigure.

(** [main] up to the call of [ListenAndServe]: the configuration, the
    first load of the blocklist, whose failure is only logged, and the
    start of the periodic refresh. The result is the server that handles
    the requests and the lines logged on the way. *)
Definition mainStart (first : FetchResult) : ProxyServer * list MainLine :=
  let proxyPort := "8080" in
  let policyURL := "http://localhost:8000/policy" in
  let updateInterval := 5%Z in
  let proxy := NewProxyServer policyURL in
  let '(proxy', err, lines) := UpdateBlocklist proxy first in
  (proxy',
   [MainBanner; MainStarting proxyPort; MainPolicyEngine policyURL;
    MainInterval updateInterval; MainLoading]
   ++ (MainUpdate <$> lines)
   ++ match err with
      | Some e => [MainWarning e; MainRetryNote]
      | None => []
      end
   ++ [MainListening proxyPort; MainConfigure]).

(** The server that a request meets after [main] has started and the
    refresh loop has gone through [ticks]. *)
Definition mainServer (first : FetchResult) (ticks : list FetchResult)
  : ProxyServer :=
  (periodicUpdate (mainStart first).1 ticks).1.

(** The last byte of a string, if it has one. *)
Fixpoint lastByte (s : string) : option ascii :=
  match s with
  | EmptyString => None
  | String c EmptyString => Some c
  | String _ s' => lastByte s'
  end.

(** ** The device posture agent *)

(** *** The collector ([agent/collector.go]) *)

(** An element of [net.InterfaceAddrs()]: a [*net.IPNet] with what
    [IP.IsLoopback()], [IP.To4() != nil] and [IP.String()] give for it, or
    an address of another type. *)
Inductive Addr :=
| IPNet (isLoopback isIPv4 : bool) (ipString : string)
| OtherAddr.

(** The loop of [GetLocalIP] over the addresses. *)
Fixpoint firstLocalIP (addrs : list Addr) : option string :=
  match addrs with
  | [] => None
  | IPNet isLoopback isIPv4 ipString :: rest =>
      if negb isLoopback then
        if isIPv4 then Some ipString else firstLocalIP rest
      else firstLocalIP rest
  | OtherAddr :: rest => firstLocalIP rest
  end.

(** The [error] values of the collector. *)
Inductive collectError :=
| ErrHostname (e : string)
| ErrInterfaces (e : string)
| ErrNoLocalIP
| ErrDiskUsage (e : string).

(** [GetLocalIP], on the result of [net.InterfaceAddrs()]. *)
Definition GetLocalIP (interfaces : string + list Addr)
  : string * option collectError :=
  match interfaces with
  | inl e => (EmptyString, Some (ErrInterfaces e))
  | inr addrs =>
      match firstLocalIP addrs with
      | Some ip => (ip, None)
      | None => (EmptyString, Some ErrNoLocalIP)
      end
  end.

(** An address that [GetLocalIP] accepts. *)
Definition usableAddr (a : Addr) : bool :=
  match a with
  | IPNet isLoopback isIPv4 _ => negb isLoopback && isIPv4
  | OtherAddr => false
  end.

Definition addrString (a : Addr) : string :=
  match a with
  | IPNet _ _ ipString => ipString
  | OtherAddr => EmptyString
  end.

(** *** The reporter ([agent/reporter.go]) *)

(** What one call of [SendReport] meets, step by step: [json.Marshal]
    fails, [http.NewRequest] fails, [httpClient.Do] fails, reading the
    body fails, or the collector answers. *)
Inductive SendOutcome :=
| MarshalFails (e : string)
| NewRequestFails (e : string)
| DoFails (e : string)
| ReadFails (e : string)
| Answered (StatusCode : Z) (body : string).

(** The [error] values of [SendReport]. *)
Inductive sendError :=
| ErrMarshal (e : string)
| ErrCreateRequest (e : string)
| ErrSendRequest (e : string)
| ErrReadBody (e : string)
| ErrCollectorStatus (code : Z) (body : string).

(** The [error] of [SendReportWithRetry]: the number of attempts and the
    last error, which it wraps; [None] stands for a [nil] one. *)
Inductive retryError :=
| ErrFailedAfter (maxRetries : Z) (lastErr : option sendError).

(** What the agent does that can be seen from outside: the calls of
    [SendReport], the lines it prints and the pauses of [time.Sleep], in
    seconds. [EvPrintStatus] stands for the lines of [printDeviceStatus]
    and [EvPrintJSON] for the indented JSON of the dry run. *)
Inductive AgentEvent :=
| EvSendReport (attempt : Z)
| EvPrintSent (body : string)
| EvPrintFailed (attempt maxRetries : Z) (err : sendError)
| EvPrintRetrying (seconds : Z)
| EvSleep (seconds : Z)
| EvPrintCollecting
| EvLogCollectError (err : collectError)
| EvPrintStatus
| EvPrintDryRun
| EvPrintJSON
| EvLogSendFailed (err : retryError)
| EvPrintSeparator.

(** The last attempt whose pause, [attempt * 2 * 10^9] nanoseconds, fits
    in a signed 64-bit integer. *)
Definition maxExactAttempt : Z := 4611686018%Z.

(** [SendReport]: the returned error and the line printed on success. *)
Definition SendReport (o : SendOutcome)
  : option sendError * list AgentEvent :=
  match o with
  | MarshalFails e => (Some (ErrMarshal e), [])
  | NewRequestFails e => (Some (ErrCreateRequest e), [])
  | DoFails e => (Some (ErrSendRequest e), [])
  | ReadFails e => (Some (ErrReadBody e), [])
  | Answered code body =>
      if negb (code =? StatusOK)%Z
      then (Some (ErrCollectorStatus code body), [])
      else (None, [EvPrintSent body])
  end.

(** The loop [for attempt := 1; attempt <= maxRetries; attempt++] of
    [SendReportWithRetry], from [attempt] on with [n] iterations left;
    [world k] is what the call of attempt [k] meets. The pause
    [time.Duration(attempt) * 2 * time.Second] is kept in seconds; as a
    count of nanoseconds in 64 bits it is exact up to the attempt
    [maxExactAttempt], beyond which the Go value wraps around. *)
Fixpoint retryLoop (world : Z → SendOutcome) (maxRetries attempt : Z)
    (n : nat) (lastErr : option sendError)
  : option retryError * list AgentEvent :=
  match n with
  | O => (Some (ErrFailedAfter maxRetries lastErr), [])
  | S n' =>
      let '(err, printed) := SendReport (world attempt) in
      match err with
      | None => (None, EvSendReport attempt :: printed)
      | Some e =>
          let pause :=
            if (attempt <? maxRetries)%Z
            then let waitTime := (attempt * 2)%Z in
                 [EvPrintFailed attempt maxRetries e;
                  EvPrintRetrying waitTime; EvSleep waitTime]
            else [] in
          let '(result, later) :=
            retryLoop world maxRetries (attempt + 1) n' (Some e) in
          (result, EvSendReport attempt :: printed ++ pause ++ later)
      end
  end.

Definition SendReportWithRetry (world : Z → SendOutcome) (maxRetries : Z)
  : option retryError * list AgentEvent :=
  retryLoop world maxRetries 1 (Z.to_nat maxRetries) None.

(** The constant [maxRetries] of [agent/main.go]. *)
Definition maxRetries : Z := 3%Z.

(** [collectAndReport], on the result of [CollectDeviceStatus] ([None]
    when it returned a status, else its error). *)
Definition collectAndReport (collectErr : option collectError) (dryRun : bool)
    (world : Z → SendOutcome) : list AgentEvent :=
  EvPrintCollecting ::
  match collectErr with
  | Some e => [EvLogCollectError e]
  | None =>
      EvPrintStatus ::
      (if dryRun then [EvPrintDryRun; EvPrintJSON]
       else let '(err, events) := SendReportWithRetry world maxRetries in
            events ++ match err with
                      | Some e => [EvLogSendFailed e]
                      | None => []
                      end)
      ++ [EvPrintSeparator]
  end.

(** What a failed attempt [j] that is not the last one leaves behind: the
    call, the two lines printed and the pause of [2 * j] seconds. *)
Definition failedTurn (world : Z → SendOutcome) (maxRetries j : Z)
  : list AgentEvent :=
  match (SendReport (world j)).1 with
  | Some e => [EvSendReport j; EvPrintFailed j maxRetries e;
               EvPrintRetrying (j * 2); EvSleep (j * 2)]
  | None => []
  end.

(** The attempts for which [SendReport] was called. *)
Definition attemptsMade (events : list AgentEvent) : list Z :=
  omap (λ ev, match ev with EvSendReport k => Some k | _ => None end) events.

(** The seconds spent in [time.Sleep]. *)
Definition secondsSlept (events : list AgentEvent) : Z :=
  foldr Z.add 0%Z
    (omap (λ ev, match ev with EvSleep s => Some s | _ => None end) events).

(** A collector that refuses the connection twice and then accepts. *)
Definition thirdTimeLucky : Z → SendOutcome :=
  λ attempt, if (attempt <? 3)%Z then DoFails "connection refused"
             else Answered 200 "ok".

(** A collector that always answers 500. *)
Definition alwaysDown : Z → SendOutcome :=
  λ _, Answered 500 "Internal Server Error".

(** ** Lemmas on strings *)

Section StringFacts.

Implicit Types (s t a b : string) (c : ascii).

Lemma app_empty_l s : EmptyString +:+ s = s.
Proof. reflexivity. Qed.

Lemma app_cons c s t : String c s +:+ t = String c (s +:+ t).
Proof. reflexivity. Qed.

Lemma app_empty_r s : s +:+ EmptyString = s.
Proof. induction s as [|c s IH]; [done|]. by rewrite app_cons, IH. Qed.

Lemma app_assoc_str s t a : (s +:+ t) +:+ a = s +:+ t +:+ a.
Proof. induction s as [|c s IH]; [done|]. by rewrite !app_cons, IH. Qed.

Lemma app_length_str s t :
  String.length (s +:+ t) = String.length s + String.length t.
Proof. induction s as [|c s IH]; [done|]. rewrite app_cons. simpl. by rewrite IH. Qed.

(** Cancelling a common tail. *)
Lemma app_inv_tail_str s t a : s +:+ a = t +:+ a → s = t.
Proof.
  revert t. induction s as [|c s IH]; intros [|d t] H.
  - done.
  - apply (f_equal String.length) in H.
    rewrite app_empty_l, app_cons in H. simpl in H.
    rewrite app_length_str in H. lia.
  - apply (f_equal String.length) in H.
    rewrite app_empty_l, app_cons in H. simpl in H.
    rewrite app_length_str in H. lia.
  - rewrite !app_cons in H. injection H as -> H. f_equal. by apply IH.
Qed.

(** *** Split *)

Lemma Split_nonempty s c : ∃ x xs, Split s c = x :: xs.
Proof.
  destruct s as [|d s]; simpl; [by eauto|].
  destruct (Ascii.eqb d c); [by eauto|].
  destruct (Split s c); eauto.
Qed.

Lemma Split_length_pos s c : 1 ≤ length (Split s c).
Proof. destruct (Split_nonempty s c) as (x & xs & ->). simpl. lia. Qed.

Lemma Split_app_sep a b c :
  Split (a +:+ String c b) c = Split a c ++ Split b c.
Proof.
  induction a as [|d a IH].
  - rewrite app_empty_l. simpl. by rewrite Ascii.eqb_refl.
  - rewrite app_cons. simpl. rewrite IH.
    destruct (Ascii.eqb d c); [done|].
    by destruct (Split_nonempty a c) as (x & xs & ->).
Qed.

Lemma Split_no_sep s c : containsByte c s = false → Split s c = [s].
Proof.
  induction s as [|d s IH]; simpl; [done|].
  intros [Hd Hs]%orb_false_iff. by rewrite Hd, (IH Hs).
Qed.

Lemma hd_Split_app_sep a b c :
  hd EmptyString (Split (a +:+ String c b) c) = hd EmptyString (Split a c).
Proof.
  rewrite Split_app_sep.
  by destruct (Split_nonempty a c) as (x & xs & ->).
Qed.

(** *** Join *)

Lemma Join_cons x y l sep :
  Join (x :: y :: l) sep = x +:+ sep +:+ Join (y :: l) sep.
Proof. reflexivity. Qed.

Lemma Join_app l1 l2 sep :
  l1 ≠ [] → l2 ≠ [] →
  Join (l1 ++ l2) sep = Join l1 sep +:+ sep +:+ Join l2 sep.
Proof.
  intros H1 H2. induction l1 as [|x [|y l1] IH]; [done| |].
  - destruct l2; [done|]. reflexivity.
  - change ((x :: y :: l1) ++ l2) with (x :: y :: (l1 ++ l2)).
    rewrite !Join_cons. change (y :: l1 ++ l2) with ((y :: l1) ++ l2).
    rewrite IH by done. by rewrite !app_assoc_str.
Qed.

Lemma Join_Split s c : Join (Split s c) (String c EmptyString) = s.
Proof.
  induction s as [|d s IH]; simpl; [done|].
  destruct (Ascii.eqb_spec d c) as [->|Hne].
  - destruct (Split_nonempty s c) as (x & xs & E). rewrite E in *.
    rewrite Join_cons, app_empty_l, IH. reflexivity.
  - destruct (Split_nonempty s c) as (x & xs & E). rewrite E in *.
    destruct xs as [|y xs].
    + simpl in *. by rewrite IH.
    + rewrite Join_cons in *. by rewrite app_cons, IH.
Qed.

(** *** ToLower *)

Lemma ToLower_app s t : ToLower (s +:+ t) = ToLower s +:+ ToLower t.
Proof.
  induction s as [|c s IH]; [done|].
  rewrite app_cons. simpl. by rewrite IH, app_cons.
Qed.

Lemma lowerByte_idemp c : lowerByte (lowerByte c) = lowerByte c.
Proof. by destruct c as [[] [] [] [] [] [] [] []]. Qed.

Lemma ToLower_idemp s : ToLower (ToLower s) = ToLower s.
Proof.
  induction s as [|c s IH]; simpl; [done|].
  by rewrite lowerByte_idemp, IH.
Qed.

Lemma lowerByte_colon c : Ascii.eqb (lowerByte c) colon = Ascii.eqb c colon.
Proof. by destruct c as [[] [] [] [] [] [] [] []]. Qed.

Lemma lowerByte_dot c : Ascii.eqb (lowerByte c) dot = Ascii.eqb c dot.
Proof. by destruct c as [[] [] [] [] [] [] [] []]. Qed.

(** Lowering the case commutes with splitting at a byte that the
    lowering neither makes nor removes. *)
Lemma Split_ToLower s c :
  (∀ d, Ascii.eqb (lowerByte d) c = Ascii.eqb d c) →
  Split (ToLower s) c = ToLower <$> Split s c.
Proof.
  intros Hc. induction s as [|d s IH]; simpl; [done|].
  rewrite Hc, IH. destruct (Ascii.eqb d c); [done|].
  by destruct (Split_nonempty s c) as (x & xs & ->).
Qed.

Lemma containsByte_app c s t :
  containsByte c (s +:+ t) = containsByte c s || containsByte c t.
Proof.
  induction s as [|d s IH]; [done|].
  rewrite app_cons. simpl. by rewrite IH, orb_assoc.
Qed.

Lemma containsByte_ToLower_colon s :
  containsByte colon (ToLower s) = containsByte colon s.
Proof.
  induction s as [|d s IH]; simpl; [done|].
  by rewrite lowerByte_colon, IH.
Qed.

End StringFacts.

(** ** Lemmas on the matcher *)

Section MatcherFacts.

Implicit Types (ps : ProxyServer) (host s d : string) (parts : list string).

Lemma sep_colon s : ":" +:+ s = String colon s.
Proof. reflexivity. Qed.

Lemma sep_dot s : "." +:+ s = String dot s.
Proof. reflexivity. Qed.

Lemma Join_Split_dot s : Join (Split s dot) "." = s.
Proof. exact (Join_Split s dot). Qed.

Lemma hostDomain_port host port :
  hostDomain (host +:+ ":" +:+ port) = hostDomain host.
Proof. unfold hostDomain. by rewrite sep_colon, hd_Split_app_sep. Qed.

Lemma hostDomain_no_colon host :
  containsByte colon host = false → hostDomain host = ToLower host.
Proof. intros H. unfold hostDomain. by rewrite Split_no_sep. Qed.

Lemma hostDomain_ToLower host : hostDomain (ToLower host) = hostDomain host.
Proof.
  unfold hostDomain. rewrite Split_ToLower by apply lowerByte_colon.
  destruct (Split_nonempty host colon) as (x & xs & ->). simpl.
  by rewrite ToLower_idemp.
Qed.

Lemma parentLoop_true_iff ps parts i n :
  parentLoop ps parts i n = true ↔
  ∃ j, i ≤ j < i + n ∧ blocklistAt ps (Join (drop j parts) ".") = true.
Proof.
  revert i. induction n as [|n IH]; intros i; simpl.
  - split; [done|]. intros (j & ? & _). lia.
  - destruct (blocklistAt ps (Join (drop i parts) ".")) eqn:E.
    + split; [|done]. intros _. exists i. split; [lia|done].
    + rewrite IH. split; intros (j & Hj & Hb).
      * exists j. split; [lia|done].
      * exists j. split; [|done].
        destruct (decide (j = i)) as [->|]; [congruence|lia].
Qed.

Lemma IsBlocked_true_iff ps host :
  IsBlocked ps host = true ↔
  blocklistAt ps (hostDomain host) = true ∨
  ∃ j, 1 ≤ j < length (Split (hostDomain host) dot) ∧
       blocklistAt ps (Join (drop j (Split (hostDomain host) dot)) ".") = true.
Proof.
  unfold IsBlocked. cbv zeta.
  destruct (blocklistAt ps (hostDomain host)) eqn:E.
  - split; [by left|done].
  - rewrite parentLoop_true_iff. split.
    + intros (j & Hj & Hb). right. exists j. split; [lia|done].
    + intros [?|(j & Hj & Hb)]; [done|]. exists j. split; [lia|done].
Qed.

(** The strings that the loop of [IsBlocked] joins are the label suffixes
    of the domain, and it joins all of them. *)
Lemma labelSuffix_chain s d :
  labelSuffix s d ↔
  s = d ∨ ∃ j, 1 ≤ j < length (Split d dot) ∧
               s = Join (drop j (Split d dot)) ".".
Proof.
  unfold labelSuffix. split; (intros [?|H]; [by left|right]).
  - destruct H as (p & ->). rewrite sep_dot, Split_app_sep.
    exists (length (Split p dot)). split.
    + rewrite length_app.
      pose proof (Split_length_pos p dot). pose proof (Split_length_pos s dot).
      lia.
    + rewrite drop_app_length. symmetry. apply Join_Split_dot.
  - destruct H as (j & Hj & ->).
    exists (Join (take j (Split d dot)) ".").
    rewrite <- Join_app.
    + by rewrite take_drop, Join_Split_dot.
    + intros E%(f_equal length). rewrite length_take in E. simpl in E. lia.
    + intros E%(f_equal length). rewrite length_drop in E. simpl in E. lia.
Qed.

(** [IsBlocked] decides whether a label suffix of the host's domain is a
    key with the value [true]. *)
Lemma IsBlocked_spec ps host :
  IsBlocked ps host = true ↔
  ∃ s, labelSuffix s (hostDomain host) ∧ blocklistAt ps s = true.
Proof.
  rewrite IsBlocked_true_iff. split.
  - intros [H|(j & Hj & H)].
    + exists (hostDomain host). split; [by left|done].
    + eexists. split; [|exact H]. apply labelSuffix_chain. right. eauto.
  - intros (s & [->|(j & Hj & ->)]%labelSuffix_chain & H); [by left|].
    right. eauto.
Qed.

End MatcherFacts.

(** ** Lemmas on the rebuilt blocklist *)

Lemma rebuild_lookup (L : list string) (m : gmap string bool) (d : string) :
  (rebuild L m).1 !! d =
  if bool_decide (d ∈ ToLower <$> L) then Some true else m !! d.
Proof.
  revert m. induction L as [|x L IH]; intros m; [done|].
  simpl. specialize (IH (<[ToLower x := true]> m)).
  destruct (rebuild L (<[ToLower x := true]> m)) as [m' lines] eqn:E.
  simpl in *. rewrite IH. clear IH E.
  destruct (decide (d ∈ ToLower <$> L)) as [Hin|Hin].
  - rewrite !bool_decide_eq_true_2; [done| |done]. by apply elem_of_cons; right.
  - rewrite (bool_decide_eq_false_2 _ Hin).
    destruct (decide (d = ToLower x)) as [->|Hne].
    + rewrite lookup_insert_eq, bool_decide_eq_true_2; [done|].
      apply elem_of_cons; by left.
    + rewrite lookup_insert_ne by done.
      rewrite bool_decide_eq_false_2; [done|].
      intros [?|?]%elem_of_cons; done.
Qed.

Lemma UpdateBlocklist_ok (ps : ProxyServer) (L : list string) :
  UpdateBlocklist ps (Response StatusOK (Document {| Blocked := L |})) =
  ({| blocklist := (rebuild L ∅).1; policyURL := policyURL ps |}, None,
   (rebuild L ∅).2 ++ [LogBlocklistUpdated (size (rebuild L ∅).1)]).
Proof. simpl. by destruct (rebuild L ∅). Qed.

(** Every entry of a snapshot the server can hold is in lower case. *)
Lemma reachable_lower (ps : ProxyServer) :
  reachable ps → ∀ d, blocklistAt ps d = true → ToLower d = d.
Proof.
  induction 1 as [url|ps fr Hr IH]; intros d.
  - unfold blocklistAt. simpl. by rewrite lookup_empty.
  - destruct fr as [e|code [e|[L]]]; simpl; [exact (IH d)| |].
    + destruct (code =? StatusOK)%Z; simpl; exact (IH d).
    + destruct (code =? StatusOK)%Z eqn:Ec; simpl; [|exact (IH d)].
      destruct (rebuild L ∅) as [m lines] eqn:E. simpl.
      unfold blocklistAt. simpl.
      replace m with (rebuild L ∅).1 by (by rewrite E).
      rewrite rebuild_lookup, lookup_empty.
      case_bool_decide as Hin; [|done]. intros _.
      apply list_elem_of_fmap in Hin as (x & -> & _). apply ToLower_idemp.
Qed.

(** ** Lemmas for any lowering function *)

Lemma IsBlockedWith_ToLower (ps : ProxyServer) (host : string) :
  IsBlockedWith ToLower ps host = IsBlocked ps host.
Proof. reflexivity. Qed.

Lemma rebuildWith_ToLower (L : list string) (m : gmap string bool) :
  rebuildWith ToLower L m = rebuild L m.
Proof.
  revert m. induction L as [|x L IH]; intros m; [done|].
  simpl. by rewrite IH.
Qed.

Lemma UpdateBlocklistWith_ToLower (ps : ProxyServer) (fr : FetchResult) :
  UpdateBlocklistWith ToLower ps fr = UpdateBlocklist ps fr.
Proof.
  destruct fr as [e|code [e|policy]]; [done|done|].
  simpl. by rewrite rebuildWith_ToLower.
Qed.

Lemma IsBlockedWith_spec (lower : string → string) (ps : ProxyServer)
    (host : string) :
  IsBlockedWith lower ps host = true ↔
  ∃ s, labelSuffix s (hostDomainWith lower host) ∧ blocklistAt ps s = true.
Proof.
  unfold IsBlockedWith. cbv zeta.
  destruct (blocklistAt ps (hostDomainWith lower host)) eqn:E.
  - split; [|done]. intros _. exists (hostDomainWith lower host).
    split; [by left|done].
  - rewrite parentLoop_true_iff. split.
    + intros (j & Hj & Hb). eexists. split; [|exact Hb].
      apply labelSuffix_chain. right. exists j. split; [lia|done].
    + intros (s & [->|(j & Hj & ->)]%labelSuffix_chain & H); [congruence|].
      exists j. split; [lia|done].
Qed.

Lemma rebuildWith_lookup (lower : string → string) (L : list string)
    (m : gmap string bool) (d : string) :
  (rebuildWith lower L m).1 !! d =
  if bool_decide (d ∈ lower <$> L) then Some true else m !! d.
Proof.
  revert m. induction L as [|x L IH]; intros m; [done|].
  simpl. specialize (IH (<[lower x := true]> m)).
  destruct (rebuildWith lower L (<[lower x := true]> m)) as [m' lines].
  simpl in *. rewrite IH. clear IH.
  destruct (decide (d ∈ lower <$> L)) as [Hin|Hin].
  - rewrite !bool_decide_eq_true_2; [done| |done]. by apply elem_of_cons; right.
  - rewrite (bool_decide_eq_false_2 _ Hin).
    destruct (decide (d = lower x)) as [->|Hne].
    + rewrite lookup_insert_eq, bool_decide_eq_true_2; [done|].
      apply elem_of_cons; by left.
    + rewrite lookup_insert_ne by done.
      rewrite bool_decide_eq_false_2; [done|].
      intros [?|?]%elem_of_cons; done.
Qed.

Lemma rebuildWith_lines (lower : string → string) (L : list string)
    (m : gmap string bool) :
  (rebuildWith lower L m).2 = LogBlockedDomain <$> L.
Proof.
  revert m. induction L as [|x L IH]; intros m; [done|].
  simpl. specialize (IH (<[lower x := true]> m)).
  destruct (rebuildWith lower L (<[lower x := true]> m)).
  simpl in *. by rewrite IH.
Qed.

Lemma rebuildWith_size (lower : string → string) (L : list string) :
  size (rebuildWith lower L ∅).1 = length (remove_dups (lower <$> L)).
Proof.
  assert ((rebuildWith lower L ∅).1
          = gset_to_gmap true (list_to_set (remove_dups (lower <$> L))))
    as ->.
  { apply map_eq. intros d.
    rewrite rebuildWith_lookup, lookup_empty, lookup_gset_to_gmap.
    case_bool_decide as Hin; case_guard as Hg; try done.
    - destruct Hg. by rewrite elem_of_list_to_set, elem_of_remove_dups.
    - destruct Hin.
      by rewrite elem_of_list_to_set, elem_of_remove_dups in Hg. }
  rewrite <- (size_dom (D := gset string)), dom_gset_to_gmap.
  apply size_list_to_set, NoDup_remove_dups.
Qed.

Lemma UpdateBlocklistWith_ok (lower : string → string) (ps : ProxyServer)
    (L : list string) :
  UpdateBlocklistWith lower ps (Response StatusOK (Document {| Blocked := L |}))
  = ({| blocklist := (rebuildWith lower L ∅).1; policyURL := policyURL ps |},
     None,
     (rebuildWith lower L ∅).2
       ++ [LogBlocklistUpdated (size (rebuildWith lower L ∅).1)]).
Proof. simpl. by destruct (rebuildWith lower L ∅). Qed.

(** ** Properties of the matcher *)

(** An entry in lower case and without a colon blocks itself and what is
    put before it with a dot. *)
Lemma IsBlocked_entry_and_subdomains (ps : ProxyServer) (D P : string) :
  blocklistAt ps D = true →
  ToLower D = D →
  containsByte colon D = false →
  containsByte colon P = false →
  IsBlocked ps D = true ∧ IsBlocked ps (P +:+ "." +:+ D) = true.
Proof.
  intros Hin Hlow HD HP. split; apply IsBlocked_spec; exists D.
  - rewrite hostDomain_no_colon, Hlow by done. split; [by left|done].
  - rewrite hostDomain_no_colon.
    + rewrite !ToLower_app, Hlow. split; [right; by eexists|done].
    + rewrite !containsByte_app, HP, HD. reflexivity.
Qed.

(** C2: in every snapshot the server can hold, every domain [D] that is
    an entry is blocked, and so is [P.D] for every subdomain label prefix
    [P]; a domain and a label prefix hold no colon. The prefix may hold
    several labels, upper-case letters, or nothing at all. *)
Theorem IsBlocked_subdomains (ps : ProxyServer) (D P : string) :
  reachable ps →
  blocklistAt ps D = true →
  containsByte colon D = false →
  containsByte colon P = false →
  IsBlocked ps D = true ∧ IsBlocked ps (P +:+ "." +:+ D) = true.
Proof.
  intros Hr Hin HD HP.
  apply IsBlocked_entry_and_subdomains; [done| |done|done].
  by apply (reachable_lower ps Hr).
Qed.

Lemma IsBlocked_subdomains_witness :
  let ps := installed ["tiktok.com"; "FaceBook.com"] in
  IsBlocked ps "facebook.com" = true ∧
  IsBlocked ps ("www.M" +:+ "." +:+ "facebook.com") = true.
Proof.
  apply (IsBlocked_subdomains (installed ["tiktok.com"; "FaceBook.com"])
           "facebook.com" "www.M").
  - apply reachable_update, reachable_new.
  - reflexivity.
  - reflexivity.
  - reflexivity.
Defined.

(** The label suffixes of [notfacebook.com] are itself and [com]. *)
Lemma labelSuffix_notfacebook (s : string) :
  labelSuffix s "notfacebook.com" → s = "notfacebook.com" ∨ s = "com".
Proof.
  intros [->|(j & Hj & ->)]%labelSuffix_chain; [by left|right].
  vm_compute in Hj. assert (j = 1) as -> by lia. reflexivity.
Qed.

(** C3, as stated, fails: for a host with two colons the port-stripped
    host and its label suffixes are not entries, and yet the host is
    blocked, because [IsBlocked] keeps the text before the first colon and
    not the host without its trailing port. *)
Lemma IsBlocked_several_colons_counterexample :
  let D := "facebook.com:80:90" in
  stripTrailingPort D = "facebook.com:80" ∧
  (∀ s, labelSuffix s (ToLower (stripTrailingPort D)) →
        blocklistAt facebookOnly s = false) ∧
  IsBlocked facebookOnly D = true.
Proof.
  intros D. split_and!; [reflexivity| |reflexivity].
  intros s Hs.
  change (ToLower (stripTrailingPort D)) with "facebook.com:80" in Hs.
  apply labelSuffix_chain in Hs as [->|(j & Hj & ->)]; [reflexivity|].
  vm_compute in Hj. assert (j = 1) as -> by lia. reflexivity.
Qed.

(** C3, amended: when neither the text of the host before its first
    colon, in lower case, nor any right-hand label suffix of that text is
    an entry of the snapshot, [IsBlocked] returns false. This holds
    whatever the lowering function does to the text, so for every host. *)
Theorem IsBlockedWith_no_suffix_false (lower : string → string)
    (ps : ProxyServer) (D : string) :
  (∀ s, labelSuffix s (hostDomainWith lower D) → blocklistAt ps s = false) →
  IsBlockedWith lower ps D = false.
Proof.
  intros H. destruct (IsBlockedWith lower ps D) eqn:E; [|done].
  apply IsBlockedWith_spec in E as (s & Hs & Hb).
  rewrite (H s Hs) in Hb. done.
Qed.

(** The instance named in the claim: [facebook.com] is blocked and occurs
    in [notfacebook.com] only as a substring. *)
Lemma IsBlockedWith_no_suffix_false_witness :
  IsBlocked facebookOnly "notfacebook.com" = false.
Proof.
  apply (IsBlockedWith_no_suffix_false ToLower facebookOnly "notfacebook.com").
  intros s Hs.
  change (hostDomainWith ToLower "notfacebook.com")
    with "notfacebook.com" in Hs.
  destruct (labelSuffix_notfacebook s Hs) as [-> | ->]; reflexivity.
Defined.

(** C8: a [:port] appended to a host does not change the verdict. *)
Theorem IsBlocked_port_ignored (ps : ProxyServer) :
  (∀ h p, IsBlocked ps (h +:+ ":" +:+ p) = IsBlocked ps h) ∧
  IsBlocked ps "facebook.com:8080" = IsBlocked ps "facebook.com".
Proof.
  assert (∀ h p, IsBlocked ps (h +:+ ":" +:+ p) = IsBlocked ps h) as H.
  { intros h p. unfold IsBlocked. by rewrite hostDomain_port. }
  split; [exact H|]. exact (H "facebook.com" "8080").
Qed.

(** C9: the verdict on a host is the verdict on the host in lower case,
    for every blocklist. *)
Theorem IsBlocked_case_insensitive (ps : ProxyServer) :
  (∀ h, IsBlocked ps h = IsBlocked ps (ToLower h)) ∧
  IsBlocked ps "FaceBook.com" = IsBlocked ps "facebook.com".
Proof.
  assert (∀ h, IsBlocked ps h = IsBlocked ps (ToLower h)) as H.
  { intros h. unfold IsBlocked. by rewrite hostDomain_ToLower. }
  split; [exact H|]. exact (H "FaceBook.com").
Qed.

(** C10: a host with a colon is judged by the text before its first
    colon; of the bracketed IPv6 literal [[::1]:8080] only the string
    ["["] is looked up. *)
Theorem IsBlocked_first_colon (ps : ProxyServer) (a b : string) :
  containsByte colon a = false →
  hostDomain (a +:+ ":" +:+ b) = ToLower a ∧
  IsBlocked ps (a +:+ ":" +:+ b) = IsBlocked ps a ∧
  IsBlocked ps "[::1]:8080" = blocklistAt ps "[".
Proof.
  intros Ha. split; [|split].
  - by rewrite hostDomain_port, hostDomain_no_colon.
  - unfold IsBlocked. by rewrite hostDomain_port.
  - unfold IsBlocked. change (hostDomain "[::1]:8080") with "[".
    cbv zeta. by destruct (blocklistAt ps "[").
Qed.

Lemma IsBlocked_first_colon_witness :
  hostDomain ("[" +:+ ":" +:+ ":1]:8080") = ToLower "[" ∧
  IsBlocked facebookOnly ("[" +:+ ":" +:+ ":1]:8080")
    = IsBlocked facebookOnly "[" ∧
  IsBlocked facebookOnly "[::1]:8080" = blocklistAt facebookOnly "[".
Proof.
  apply (IsBlocked_first_colon facebookOnly "[" ":1]:8080"). reflexivity.
Defined.

(** ** Properties of the policy refresh *)

(** C4, as stated, fails: the refresh lowers the case of an element and
    leaves its port in place, so the entry it installs is not the element
    normalized as a request host is, and that normalized domain is not an
    entry. *)
Lemma UpdateBlocklist_keeps_port_counterexample :
  let ps := (UpdateBlocklist facebookOnly
               (Response StatusOK
                  (Document {| Blocked := ["Facebook.com:8080"] |}))).1.1 in
  hostDomain "Facebook.com:8080" = "facebook.com" ∧
  blocklistAt ps "facebook.com" = false ∧
  blocklistAt ps "facebook.com:8080" = true ∧
  containsByte colon "facebook.com:8080" = true.
Proof. vm_compute. done. Qed.

(** C4, amended: after a refresh that fetched (status 200) and parsed a
    document with the domain list [L], the blocklist is exactly the set of
    the elements of [L] lowered by [strings.ToLower], each with the value
    [true]; the former entries are gone and no port is stripped. The
    lowering being idempotent, every entry is its own lower-case form. *)
Theorem UpdateBlocklistWith_replaces (lower : string → string)
    (ps : ProxyServer) (L : list string) :
  (∀ x, lower (lower x) = lower x) →
  let '(ps', err, _) :=
    UpdateBlocklistWith lower ps
      (Response StatusOK (Document {| Blocked := L |})) in
  err = None ∧
  policyURL ps' = policyURL ps ∧
  (∀ d, blocklist ps' !! d =
        if bool_decide (d ∈ lower <$> L) then Some true else None) ∧
  (∀ d, blocklistAt ps' d = true ↔ ∃ x, x ∈ L ∧ d = lower x) ∧
  map_Forall (λ d _, lower d = d) (blocklist ps').
Proof.
  intros Hidem. rewrite UpdateBlocklistWith_ok. cbn [blocklist policyURL].
  assert (∀ d, (rebuildWith lower L ∅).1 !! d =
               if bool_decide (d ∈ lower <$> L) then Some true else None)
    as Hl.
  { intros d. by rewrite rebuildWith_lookup, lookup_empty. }
  split_and!; [done|done|exact Hl| |].
  - intros d. unfold blocklistAt. cbn [blocklist]. rewrite Hl.
    case_bool_decide as Hin; simpl.
    + split; [|done]. intros _.
      apply list_elem_of_fmap in Hin as (x & -> & Hx). eauto.
    + split; [done|]. intros (x & Hx & ->). destruct Hin.
      by apply list_elem_of_fmap_2.
  - intros d v. rewrite Hl. case_bool_decide as Hin; [|done].
    intros _. apply list_elem_of_fmap in Hin as (x & -> & _).
    apply Hidem.
Qed.

Lemma UpdateBlocklistWith_replaces_witness :
  let '(ps', err, _) :=
    UpdateBlocklistWith ToLower facebookOnly
      (Response StatusOK
         (Document {| Blocked := ["TikTok.com"; "Facebook.com:8080"] |})) in
  err = None ∧
  policyURL ps' = policyURL facebookOnly ∧
  (∀ d, blocklist ps' !! d =
        if bool_decide (d ∈ ToLower <$> ["TikTok.com"; "Facebook.com:8080"])
        then Some true else None) ∧
  (∀ d, blocklistAt ps' d = true ↔
        ∃ x, x ∈ ["TikTok.com"; "Facebook.com:8080"] ∧ d = ToLower x) ∧
  map_Forall (λ d _, ToLower d = d) (blocklist ps').
Proof.
  exact (UpdateBlocklistWith_replaces ToLower facebookOnly
           ["TikTok.com"; "Facebook.com:8080"] ToLower_idemp).
Defined.

(** C5: a refresh that fails returns an error and leaves the server as it
    was, and the refresh loop logs the error and goes on with the next
    ticks from the unchanged server. *)
Theorem UpdateBlocklist_failure (ps : ProxyServer) (fr : FetchResult) :
  fetchFails fr →
  ∃ e, UpdateBlocklist ps fr = (ps, Some e, []) ∧
       ∀ rest, periodicUpdate ps (fr :: rest) =
               ((periodicUpdate ps rest).1,
                LogUpdating :: LogErrorUpdating e :: (periodicUpdate ps rest).2).
Proof.
  intros Hf.
  assert (∃ e, UpdateBlocklist ps fr = (ps, Some e, [])) as [e He].
  { destruct fr as [e|code body]; simpl; [by eauto|].
    destruct (code =? StatusOK)%Z eqn:Ec; simpl; [|by eauto].
    apply Z.eqb_eq in Ec as ->.
    destruct Hf as [Hs|[e ->]]; [|by eauto].
    destruct Hs. unfold successStatus, StatusOK. lia. }
  exists e. split; [exact He|]. intros rest.
  cbn [periodicUpdate]. rewrite He.
  by destruct (periodicUpdate ps rest).
Qed.

Lemma UpdateBlocklist_failure_witness :
  ∃ e, UpdateBlocklist facebookOnly (Response 503 (Malformed "EOF"))
       = (facebookOnly, Some e, []) ∧
       ∀ rest, periodicUpdate facebookOnly
                 (Response 503 (Malformed "EOF") :: rest) =
               ((periodicUpdate facebookOnly rest).1,
                LogUpdating :: LogErrorUpdating e
                  :: (periodicUpdate facebookOnly rest).2).
Proof.
  apply (UpdateBlocklist_failure facebookOnly (Response 503 (Malformed "EOF"))).
  simpl. left. unfold successStatus. lia.
Defined.

(** ** Properties of the dispatcher *)

Section DispatcherFacts.

Variable network : Request → RoundTrip.

Implicit Types (ps : ProxyServer) (r : Request).

Lemma serve_blocked ps r :
  IsBlocked ps (requestHost r) = true →
  serve network ps r =
  {| w := {| header := <["Content-Type" := ["text/html; charset=utf-8"]]> ∅;
             statusCode := Some StatusForbidden;
             written := blockedPageHTML (requestHost r) |};
     logged := [LogRequest (Method r) (requestHost r) (RemoteAddr r);
                LogBLOCKED (requestHost r)];
     calls := [CallIsBlocked (requestHost r) true;
               CallServeBlockedPage (requestHost r)] |}.
Proof.
  intros Hb. unfold serve, ServeHTTP, callIsBlocked. cbv zeta.
  unfold mbind, mret, Handler_bind, Handler_ret, logPrintf, called. simpl.
  rewrite Hb. reflexivity.
Qed.

Lemma serve_allowed ps r :
  IsBlocked ps (requestHost r) = false →
  serve network ps r =
  (forwardRequest network r
     {| w := newResponseWriter;
        logged := [LogRequest (Method r) (requestHost r) (RemoteAddr r);
                   LogALLOWED (requestHost r)];
        calls := [CallIsBlocked (requestHost r) false] |}).2.
Proof.
  intros Hb. unfold serve, ServeHTTP, callIsBlocked. cbv zeta.
  unfold mbind, mret, Handler_bind, Handler_ret, logPrintf, called. simpl.
  rewrite Hb. reflexivity.
Qed.

(** [forwardRequest] puts its own call on record and nothing else. *)
Lemma forwardRequest_calls r (ex : Exchange) :
  calls (forwardRequest network r ex).2 = calls ex ++ [CallForwardRequest r].
Proof.
  unfold forwardRequest, mbind, Handler_bind, called, onWriter.
  by destruct (network r).
Qed.

(** The response that [forwardRequest] writes depends on the writer it is
    given, not on the log or on the calls on record. *)
Lemma forwardRequest_writer r (ex : Exchange) :
  w (forwardRequest network r ex).2
  = w (forwardRequest network r
         {| w := w ex; logged := []; calls := [] |}).2.
Proof.
  unfold forwardRequest, mbind, Handler_bind, called, onWriter.
  by destruct (network r).
Qed.

(** The two ways [ServeHTTP] can go. *)
Lemma serve_cases ps r :
  (IsBlocked ps (requestHost r) = true ∧
   serve network ps r =
   {| w := {| header := <["Content-Type" := ["text/html; charset=utf-8"]]> ∅;
              statusCode := Some StatusForbidden;
              written := blockedPageHTML (requestHost r) |};
      logged := [LogRequest (Method r) (requestHost r) (RemoteAddr r);
                 LogBLOCKED (requestHost r)];
      calls := [CallIsBlocked (requestHost r) true;
                CallServeBlockedPage (requestHost r)] |}) ∨
  (IsBlocked ps (requestHost r) = false ∧
   serve network ps r =
   (forwardRequest network r
      {| w := newResponseWriter;
         logged := [LogRequest (Method r) (requestHost r) (RemoteAddr r);
                    LogALLOWED (requestHost r)];
         calls := [CallIsBlocked (requestHost r) false] |}).2).
Proof.
  destruct (IsBlocked ps (requestHost r)) eqn:Hb.
  - left. split; [done|]. by apply serve_blocked.
  - right. split; [done|]. by apply serve_allowed.
Qed.

End DispatcherFacts.

(** C1: a request whose host is reported blocked gets the 403 page with
    the host in it and [forwardRequest] is not called; a request whose
    host is reported allowed is handed to [forwardRequest], whose response
    is relayed; and [forwardRequest] is called only after [IsBlocked] has
    returned false for the request's host. *)
Theorem ServeHTTP_gate (network : Request → RoundTrip)
    (ps : ProxyServer) (r : Request) :
  let host := requestHost r in
  let ex := serve network ps r in
  (IsBlocked ps host = true →
     statusCode (w ex) = Some StatusForbidden ∧
     written (w ex) = blockPagePrefix +:+ host +:+ blockPageSuffix ∧
     calls ex = [CallIsBlocked host true; CallServeBlockedPage host] ∧
     ∀ r', CallForwardRequest r' ∉ calls ex) ∧
  (IsBlocked ps host = false →
     calls ex = [CallIsBlocked host false; CallForwardRequest r] ∧
     w ex = w (forwardRequest network r newExchange).2) ∧
  (∀ r', CallForwardRequest r' ∈ calls ex →
     r' = r ∧ IsBlocked ps host = false ∧
     ∃ later, calls ex = CallIsBlocked host false
                           :: CallForwardRequest r :: later).
Proof.
  intros host ex. subst host ex. split_and!.
  - intros Hb. rewrite (serve_blocked network ps r Hb). cbn [w calls statusCode written].
    split_and!; [done|done|done|].
    intros r' [?|[?|?%elem_of_nil]%elem_of_cons]%elem_of_cons; done.
  - intros Hb. rewrite (serve_allowed network ps r Hb).
    rewrite forwardRequest_calls, forwardRequest_writer. done.
  - intros r' Hin. destruct (IsBlocked ps (requestHost r)) eqn:Hb.
    + rewrite (serve_blocked network ps r Hb) in Hin. cbn [calls] in Hin.
      apply elem_of_cons in Hin as [?|[?|?%elem_of_nil]%elem_of_cons]; done.
    + rewrite (serve_allowed network ps r Hb) in *.
      rewrite forwardRequest_calls in *. cbn [calls app] in *.
      apply elem_of_cons in Hin as [?|[Heq|?%elem_of_nil]%elem_of_cons];
        [done| |done].
      injection Heq as ->. split_and!; [done|done|by exists []].
Qed.

(** A blocked and an allowed request under the blocklist [facebook.com],
    with an upstream that cannot be reached. *)
Lemma ServeHTTP_gate_witness :
  let blockedEx := serve unreachable facebookOnly (getRequest "www.facebook.com") in
  let allowedEx := serve unreachable facebookOnly (getRequest "example.com") in
  (statusCode (w blockedEx) = Some StatusForbidden ∧
   written (w blockedEx)
     = blockPagePrefix +:+ "www.facebook.com" +:+ blockPageSuffix ∧
   calls blockedEx = [CallIsBlocked "www.facebook.com" true;
                      CallServeBlockedPage "www.facebook.com"] ∧
   ∀ r', CallForwardRequest r' ∉ calls blockedEx) ∧
  (calls allowedEx = [CallIsBlocked "example.com" false;
                      CallForwardRequest (getRequest "example.com")] ∧
   w allowedEx
     = w (forwardRequest unreachable (getRequest "example.com") newExchange).2) ∧
  (IsBlocked facebookOnly "example.com" = false).
Proof.
  intros blockedEx allowedEx.
  destruct (ServeHTTP_gate unreachable facebookOnly
              (getRequest "www.facebook.com")) as (Hb & _ & _).
  destruct (ServeHTTP_gate unreachable facebookOnly
              (getRequest "example.com")) as (_ & Ha & Hf).
  split; [exact (Hb eq_refl)|]. split; [exact (Ha eq_refl)|].
  apply (Hf (getRequest "example.com")).
  apply elem_of_cons; right. apply elem_of_cons; left. reflexivity.
Defined.

(** The text in the host's place of the block page is the host. *)
Lemma blockedPageHTML_slot (host e : string) :
  blockedPageHTML host = blockPagePrefix +:+ e +:+ blockPageSuffix ↔ e = host.
Proof.
  unfold blockedPageHTML. split; [|by intros ->].
  intros H. apply (inj (String.app blockPagePrefix)) in H.
  symmetry. by apply app_inv_tail_str in H.
Qed.

Lemma serveBlockedPage_writer (host : string) :
  w (serveBlockedPage host newExchange).2 =
  {| header := <["Content-Type" := ["text/html; charset=utf-8"]]> ∅;
     statusCode := Some StatusForbidden;
     written := blockedPageHTML host |}.
Proof. reflexivity. Qed.

(** C6, as stated, fails: a host with a [<script>] fragment that the
    blocklist [facebook.com] blocks is written into the page as it is, and
    the text in the host's place is not free of markup characters. *)
Lemma serveBlockedPage_script_counterexample :
  let host := "<script>.facebook.com" in
  let ex := serve unreachable facebookOnly (getRequest host) in
  statusCode (w ex) = Some StatusForbidden ∧
  written (w ex) = blockPagePrefix +:+ host +:+ blockPageSuffix ∧
  htmlSafe host = false ∧
  ¬ ∃ e, written (w ex) = blockPagePrefix +:+ e +:+ blockPageSuffix ∧
         htmlSafe e = true.
Proof.
  intros host ex.
  assert (written (w ex) = blockedPageHTML host) as Hw.
  { subst ex. by rewrite serve_blocked. }
  split_and!; [by subst ex; rewrite serve_blocked|exact Hw|done|].
  intros (e & He & Hsafe). rewrite Hw in He.
  apply blockedPageHTML_slot in He as ->. done.
Qed.

(** C6, amended: for every host the block response has status 403, the
    HTML content type, and the fixed page with the host written into it
    unchanged; nothing is escaped, so the text in the host's place is free
    of markup characters exactly when the host is. *)
Theorem serveBlockedPage_embeds_verbatim (host : string) :
  let rw := w (serveBlockedPage host newExchange).2 in
  statusCode rw = Some StatusForbidden ∧
  header rw !! "Content-Type" = Some ["text/html; charset=utf-8"] ∧
  (∀ e, written rw = blockPagePrefix +:+ e +:+ blockPageSuffix ↔ e = host) ∧
  ((∃ e, written rw = blockPagePrefix +:+ e +:+ blockPageSuffix ∧
         htmlSafe e = true) ↔ htmlSafe host = true).
Proof.
  intros rw. subst rw. rewrite serveBlockedPage_writer.
  cbn [statusCode header written]. split_and!.
  - done.
  - apply lookup_insert_eq.
  - apply blockedPageHTML_slot.
  - split.
    + by intros (e & ->%blockedPageHTML_slot & He).
    + intros Hs. exists host. by rewrite blockedPageHTML_slot.
Qed.

(** C7, as stated, fails: a request without a host is put to [IsBlocked]
    and, the empty string not being an entry, handed to [forwardRequest];
    the response is the 502 of the failed forward, not a client error. *)
Lemma ServeHTTP_empty_host_counterexample :
  let r := getRequest EmptyString in
  let ex := serve unreachable (NewProxyServer "http://localhost:8000/policy") r in
  requestHost r = EmptyString ∧
  calls ex = [CallIsBlocked EmptyString false; CallForwardRequest r] ∧
  statusCode (w ex) = Some StatusBadGateway ∧
  ¬ clientError (statusCode (w ex)).
Proof.
  intros r ex. split_and!; [done|done|done|].
  intros (c & Hc & Hr). vm_compute in Hc. injection Hc as <-. lia.
Qed.

(** C7, amended: the dispatcher has no check for a missing host. A request
    whose host is empty is put to [IsBlocked], which answers by whether the
    empty string is an entry; when it is not, the request goes to
    [forwardRequest] and the response is the one written there. *)
Theorem ServeHTTP_empty_host (network : Request → RoundTrip)
    (ps : ProxyServer) (r : Request) :
  requestHost r = EmptyString →
  let ex := serve network ps r in
  IsBlocked ps EmptyString = blocklistAt ps EmptyString ∧
  if blocklistAt ps EmptyString
  then calls ex = [CallIsBlocked EmptyString true;
                   CallServeBlockedPage EmptyString] ∧
       statusCode (w ex) = Some StatusForbidden
  else calls ex = [CallIsBlocked EmptyString false; CallForwardRequest r] ∧
       w ex = w (forwardRequest network r newExchange).2.
Proof.
  intros Hr ex.
  assert (IsBlocked ps EmptyString = blocklistAt ps EmptyString) as Hb.
  { unfold IsBlocked. change (hostDomain EmptyString) with EmptyString.
    cbv zeta. by destruct (blocklistAt ps EmptyString). }
  split; [exact Hb|]. subst ex.
  destruct (serve_cases network ps r) as [(Hy & -> )|(Hn & ->)];
    rewrite Hr, Hb in *; rewrite ?Hy, ?Hn.
  - done.
  - by rewrite forwardRequest_calls, forwardRequest_writer.
Qed.

Lemma ServeHTTP_empty_host_witness :
  let ps := NewProxyServer "http://localhost:8000/policy" in
  let r := getRequest EmptyString in
  let ex := serve unreachable ps r in
  IsBlocked ps EmptyString = blocklistAt ps EmptyString ∧
  calls ex = [CallIsBlocked EmptyString false; CallForwardRequest r] ∧
  w ex = w (forwardRequest unreachable r newExchange).2.
Proof.
  exact (ServeHTTP_empty_host unreachable
           (NewProxyServer "http://localhost:8000/policy")
           (getRequest EmptyString) eq_refl).
Defined.

(** ** Further properties of the matcher *)

Section MatcherMore.

Implicit Types (ps : ProxyServer) (host s d k : string).

Lemma Split_parts_no_sep s c x :
  x ∈ Split s c → containsByte c x = false.
Proof.
  revert x. induction s as [|a s IH]; intros x; simpl.
  - by intros ->%list_elem_of_singleton.
  - destruct (Ascii.eqb a c) eqn:Ea.
    + intros [->|Hx]%elem_of_cons; [done|by apply IH].
    + destruct (Split_nonempty s c) as (y & ys & E). rewrite E in *.
      intros [->|Hx]%elem_of_cons.
      * simpl. rewrite Ea. apply IH, elem_of_cons. by left.
      * apply IH, elem_of_cons. by right.
Qed.

Lemma hostDomain_colon_free host : containsByte colon (hostDomain host) = false.
Proof.
  unfold hostDomain. rewrite containsByte_ToLower_colon.
  destruct (Split_nonempty host colon) as (x & xs & E). rewrite E. simpl.
  apply (Split_parts_no_sep host colon). rewrite E. apply elem_of_cons. by left.
Qed.

Lemma hostDomain_lower host : ToLower (hostDomain host) = hostDomain host.
Proof. apply ToLower_idemp. Qed.

Lemma ToLower_length s : String.length (ToLower s) = String.length s.
Proof. induction s as [|c s IH]; simpl; congruence. Qed.

Lemma app_inj_length (a a' b b' : string) :
  String.length a = String.length a' →
  a +:+ b = a' +:+ b' → a = a' ∧ b = b'.
Proof.
  revert a'. induction a as [|c a IH]; intros [|c' a'] Hl H; try done.
  rewrite !app_cons in H. injection H as -> H. simpl in Hl.
  destruct (IH a') as [-> ->]; [lia|done|done].
Qed.

(** The label suffixes of a domain in lower case and without a colon are
    in lower case and without a colon. *)
Lemma labelSuffix_normal s d :
  labelSuffix s d →
  containsByte colon d = false → ToLower d = d →
  containsByte colon s = false ∧ ToLower s = s.
Proof.
  intros [->|(p & ->)] Hc Hl; [done|].
  rewrite !containsByte_app in Hc.
  apply orb_false_iff in Hc as [_ [_ Hc]%orb_false_iff].
  split; [done|].
  rewrite !ToLower_app in Hl.
  apply app_inj_length in Hl as [_ Hl]; [|apply ToLower_length].
  by apply app_inj_length in Hl as [_ Hl].
Qed.

Lemma lastByte_app_nonempty (a b : string) :
  b ≠ EmptyString → lastByte (a +:+ b) = lastByte b.
Proof.
  intros Hb. induction a as [|c a IH]; [done|].
  rewrite app_cons. simpl. rewrite IH.
  destruct (a +:+ b) eqn:E; [|done].
  destruct a; [by rewrite app_empty_l in E|by rewrite app_cons in E].
Qed.

(** A label suffix of a domain that ends with a dot is empty or ends
    with a dot. *)
Lemma labelSuffix_of_dotted s d :
  labelSuffix s (d +:+ ".") → s = EmptyString ∨ lastByte s = Some dot.
Proof.
  assert (lastByte (d +:+ ".") = Some dot) as Hd
    by (by rewrite lastByte_app_nonempty).
  intros [->|(p & E)]; [by right|].
  destruct (decide (s = EmptyString)) as [|Hs]; [by left|right].
  rewrite E in Hd.
  rewrite lastByte_app_nonempty in Hd by (by rewrite sep_dot).
  by rewrite lastByte_app_nonempty in Hd.
Qed.

Lemma IsBlocked_new url host : IsBlocked (NewProxyServer url) host = false.
Proof.
  destruct (IsBlocked _ host) eqn:E; [|done].
  apply IsBlocked_spec in E as (s & _ & H).
  unfold blocklistAt in H. simpl in H. by rewrite lookup_empty in H.
Qed.

End MatcherMore.

(** X1: [IsBlocked] is true exactly when some right-hand label suffix of
    the host's domain (the text before the first colon, lowered) is a key
    of the blocklist with the value [true]; this holds whatever the
    lowering function does to the text. *)
Theorem IsBlockedWith_iff_suffix_entry (lower : string → string)
    (ps : ProxyServer) (host : string) :
  IsBlockedWith lower ps host = true ↔
  ∃ s, labelSuffix s (hostDomainWith lower host) ∧ blocklistAt ps s = true.
Proof. apply IsBlockedWith_spec. Qed.

(** X2: a blocklist with more entries blocks at least the same hosts. *)
Theorem IsBlocked_monotone (ps ps' : ProxyServer) (host : string) :
  (∀ k, blocklistAt ps k = true → blocklistAt ps' k = true) →
  IsBlocked ps host = true → IsBlocked ps' host = true.
Proof.
  intros Hsub (s & Hs & Hk)%IsBlocked_spec.
  apply IsBlocked_spec. exists s. split; [done|by apply Hsub].
Qed.

Lemma IsBlocked_monotone_witness :
  IsBlocked (installed ["facebook.com"; "tiktok.com"]) "m.Facebook.com:80"
  = true.
Proof.
  apply (IsBlocked_monotone facebookOnly
           (installed ["facebook.com"; "tiktok.com"]) "m.Facebook.com:80").
  - intros k Hk. unfold blocklistAt in *. simpl in *.
    destruct (decide (k = "facebook.com")) as [->|Hne]; [reflexivity|].
    by rewrite lookup_singleton_ne in Hk.
  - reflexivity.
Defined.

(** X3: the verdict depends only on the keys that are in lower case and
    hold no colon; a key with an upper-case letter or a colon is never
    looked up. *)
Theorem IsBlocked_normalized_keys_only (ps ps' : ProxyServer) (host : string) :
  (∀ k, containsByte colon k = false → ToLower k = k →
        blocklistAt ps k = blocklistAt ps' k) →
  IsBlocked ps host = IsBlocked ps' host.
Proof.
  intros Hk.
  assert (∀ p q : ProxyServer,
            (∀ k, containsByte colon k = false → ToLower k = k →
                  blocklistAt p k = blocklistAt q k) →
            IsBlocked p host = true → IsBlocked q host = true) as Hone.
  { intros p q Hpq (s & Hs & Hb)%IsBlocked_spec.
    apply IsBlocked_spec. exists s. split; [done|].
    destruct (labelSuffix_normal s (hostDomain host) Hs) as [Hc Hl];
      [apply hostDomain_colon_free|apply hostDomain_lower|].
    by rewrite <- (Hpq s Hc Hl). }
  destruct (IsBlocked ps host) eqn:E1, (IsBlocked ps' host) eqn:E2; try done.
  - rewrite (Hone ps ps' Hk E1) in E2. done.
  - assert (IsBlocked ps host = true) as E; [|by rewrite E in E1].
    apply (Hone ps' ps); [|done]. intros k Hc Hl. symmetry. by apply Hk.
Qed.

Lemma IsBlocked_normalized_keys_only_witness :
  IsBlocked facebookOnly "example.com:8080"
  = IsBlocked {| blocklist := <["example.com:8080" := true]>
                                (<["Example.com" := true]>
                                   (blocklist facebookOnly));
                 policyURL := policyURL facebookOnly |}
      "example.com:8080".
Proof.
  apply IsBlocked_normalized_keys_only.
  intros k Hc Hl. unfold blocklistAt. cbn [blocklist].
  rewrite !lookup_insert_ne; [done| |].
  - intros <-. vm_compute in Hl. done.
  - intros <-. vm_compute in Hc. done.
Defined.

(** X4: when no entry is empty or ends with a dot, no host written with a
    trailing dot is blocked, whatever the entries are. *)
Theorem IsBlocked_trailing_dot (ps : ProxyServer) (host : string) :
  (∀ k, blocklistAt ps k = true →
        k ≠ EmptyString ∧ lastByte k ≠ Some dot) →
  containsByte colon host = false →
  IsBlocked ps (host +:+ ".") = false.
Proof.
  intros Hk Hc. destruct (IsBlocked ps (host +:+ ".")) eqn:E; [|done].
  apply IsBlocked_spec in E as (s & Hs & Hb).
  rewrite hostDomain_no_colon in Hs.
  - rewrite ToLower_app in Hs.
    destruct (Hk s Hb) as [Hne Hlast].
    by destruct (labelSuffix_of_dotted _ _ Hs).
  - rewrite containsByte_app, Hc. reflexivity.
Qed.

Lemma IsBlocked_trailing_dot_witness :
  IsBlocked facebookOnly ("www.facebook.com" +:+ ".") = false.
Proof.
  apply (IsBlocked_trailing_dot facebookOnly "www.facebook.com").
  - intros k Hk. unfold blocklistAt in Hk. simpl in Hk.
    destruct (decide (k = "facebook.com")) as [->|Hne]; [by split|].
    by rewrite lookup_singleton_ne in Hk.
  - reflexivity.
Defined.

(** ** Further properties of the policy refresh *)

Lemma UpdateBlocklist_not_ok (ps : ProxyServer) (fr : FetchResult) :
  refreshOK fr = false → ∃ e, UpdateBlocklist ps fr = (ps, Some e, []).
Proof.
  destruct fr as [e|code [e|policy]]; simpl; intros H; [by eauto| |].
  - destruct (code =? StatusOK)%Z; simpl; eauto.
  - rewrite H. simpl. eauto.
Qed.

Lemma periodicUpdate_all_fail (ps : ProxyServer) (ticks : list FetchResult) :
  Forall (λ fr, refreshOK fr = false) ticks →
  (periodicUpdate ps ticks).1 = ps.
Proof.
  induction 1 as [|fr ticks Hfr _ IH]; [done|].
  cbn [periodicUpdate].
  destruct (UpdateBlocklist_not_ok ps fr Hfr) as [e ->].
  by destruct (periodicUpdate ps ticks).
Qed.

Lemma periodicUpdate_app_server (ps : ProxyServer)
    (ticks later : list FetchResult) :
  (periodicUpdate ps (ticks ++ later)).1
  = (periodicUpdate (periodicUpdate ps ticks).1 later).1.
Proof.
  revert ps. induction ticks as [|fr ticks IH]; intros ps; [done|].
  cbn [app periodicUpdate].
  destruct (UpdateBlocklist ps fr) as [[ps' err] lines].
  specialize (IH ps').
  destruct (periodicUpdate ps' (ticks ++ later)),
    (periodicUpdate ps' ticks). exact IH.
Qed.

(** X5: [UpdateBlocklist] returns no error exactly for a response with
    status 200 and a body that decodes; on every other fetch, a 2xx
    status other than 200 included, it logs nothing and the server stays
    as it was. *)
Theorem UpdateBlocklist_error_iff (ps : ProxyServer) (fr : FetchResult) :
  let '(ps', err, lines) := UpdateBlocklist ps fr in
  (err = None ↔ ∃ L, fr = Response StatusOK (Document {| Blocked := L |})) ∧
  (err ≠ None → ps' = ps ∧ lines = []).
Proof.
  destruct fr as [e|code [e|[L]]]; simpl.
  - split; [|done]. split; [done|]. by intros [L ?].
  - destruct (code =? StatusOK)%Z; simpl; (split; [|done]);
      (split; [done|]); by intros [L ?].
  - destruct (code =? StatusOK)%Z eqn:Ec; simpl.
    + apply Z.eqb_eq in Ec as ->.
      destruct (rebuild L ∅). split; [|done]. split; [by eauto|done].
    + split; [|done]. split; [done|]. intros [L' [= -> _]].
      by rewrite Z.eqb_refl in Ec.
Qed.

Lemma UpdateBlocklist_error_iff_witness :
  (UpdateBlocklist facebookOnly
     (Response 204 (Document {| Blocked := ["tiktok.com"] |}))).1.1
  = facebookOnly.
Proof.
  pose proof (UpdateBlocklist_error_iff facebookOnly
                (Response 204 (Document {| Blocked := ["tiktok.com"] |})))
    as H.
  destruct (UpdateBlocklist facebookOnly _) as [[ps' err] lines] eqn:E.
  destruct H as [_ H]. simpl.
  apply H. vm_compute in E. by injection E as _ <- _.
Defined.

(** X6: the blocklist that a successful refresh installs depends only on
    the set of the lower-case forms of the listed domains: their order,
    their repetitions and their case do not matter. *)
Theorem UpdateBlocklist_set_semantics (ps ps' : ProxyServer)
    (L L' : list string) :
  (∀ d, d ∈ ToLower <$> L ↔ d ∈ ToLower <$> L') →
  blocklist (UpdateBlocklist ps
               (Response StatusOK (Document {| Blocked := L |}))).1.1
  = blocklist (UpdateBlocklist ps'
                 (Response StatusOK (Document {| Blocked := L' |}))).1.1.
Proof.
  intros H. rewrite !UpdateBlocklist_ok. cbn [fst blocklist].
  apply map_eq. intros d. rewrite !rebuild_lookup.
  by rewrite (bool_decide_ext _ _ (H d)).
Qed.

Lemma UpdateBlocklist_set_semantics_witness :
  blocklist (UpdateBlocklist facebookOnly
               (Response StatusOK
                  (Document {| Blocked := ["A.com"; "b.org"; "a.com"] |}))).1.1
  = blocklist (UpdateBlocklist (NewProxyServer "u")
                 (Response StatusOK
                    (Document {| Blocked := ["b.org"; "a.COM"] |}))).1.1.
Proof.
  apply UpdateBlocklist_set_semantics.
  intros d. change (ToLower <$> ["A.com"; "b.org"; "a.com"])
    with ["a.com"; "b.org"; "a.com"].
  change (ToLower <$> ["b.org"; "a.COM"]) with ["b.org"; "a.com"].
  rewrite !elem_of_cons, !elem_of_nil. tauto.
Defined.

(** X7: a successful refresh logs one line per listed domain, in the
    order and the spelling of the list, and then the number of entries of
    the new blocklist, which is the number of distinct lowered forms and
    so at most the length of the list; this holds whatever the lowering
    function does to the text. *)
Theorem UpdateBlocklistWith_log (lower : string → string)
    (ps : ProxyServer) (L : list string) :
  (UpdateBlocklistWith lower ps
     (Response StatusOK (Document {| Blocked := L |}))).2
  = (LogBlockedDomain <$> L)
      ++ [LogBlocklistUpdated (length (remove_dups (lower <$> L)))] ∧
  length (remove_dups (lower <$> L)) ≤ length L.
Proof.
  split.
  - rewrite UpdateBlocklistWith_ok. cbn [snd].
    by rewrite rebuildWith_lines, rebuildWith_size.
  - rewrite <- (length_fmap lower L).
    apply submseteq_length, NoDup_submseteq; [apply NoDup_remove_dups|].
    intros x. by rewrite elem_of_remove_dups.
Qed.

(** X8: after the refresh loop has gone through its ticks, the server is
    the one it started from when every tick failed, and otherwise its
    blocklist is the one installed from the list of the last tick that
    succeeded. *)
Theorem periodicUpdate_last_success (ps : ProxyServer)
    (ticks : list FetchResult) :
  (Forall (λ fr, refreshOK fr = false) ticks →
   (periodicUpdate ps ticks).1 = ps) ∧
  (∀ before L after,
     ticks = before ++ Response StatusOK (Document {| Blocked := L |}) :: after →
     Forall (λ fr, refreshOK fr = false) after →
     blocklist (periodicUpdate ps ticks).1 = blocklist (installed L) ∧
     policyURL (periodicUpdate ps ticks).1 = policyURL ps).
Proof.
  assert (∀ q l, policyURL (periodicUpdate q l).1 = policyURL q) as Hurl.
  { intros q l. revert q. induction l as [|fr l IH]; intros q; [done|].
    change (fr :: l) with ([fr] ++ l). rewrite periodicUpdate_app_server.
    rewrite IH. cbn [periodicUpdate].
    destruct fr as [e|code [e|[L]]]; simpl; [done| |].
    - by destruct (code =? StatusOK)%Z.
    - destruct (code =? StatusOK)%Z; [|done]. simpl.
      by destruct (rebuild L ∅). }
  split; [apply periodicUpdate_all_fail|].
  intros before L after -> Hafter. split; [|apply Hurl].
  rewrite periodicUpdate_app_server.
  change (?x :: after) with ([x] ++ after).
  rewrite periodicUpdate_app_server, periodicUpdate_all_fail by done.
  cbn [periodicUpdate]. rewrite UpdateBlocklist_ok. cbn [fst blocklist].
  unfold installed. by rewrite UpdateBlocklist_ok.
Qed.

Lemma periodicUpdate_last_success_witness :
  let ticks := [Response StatusOK (Document {| Blocked := ["a.com"] |});
                GetFailed "timeout";
                Response StatusOK (Document {| Blocked := ["B.org"] |});
                Response 500 (Malformed "EOF")] in
  (periodicUpdate facebookOnly [GetFailed "timeout"]).1 = facebookOnly ∧
  blocklist (periodicUpdate facebookOnly ticks).1
  = blocklist (installed ["B.org"]).
Proof.
  intros ticks. split.
  - apply (periodicUpdate_last_success facebookOnly [GetFailed "timeout"]).
    by repeat constructor.
  - apply (periodicUpdate_last_success facebookOnly ticks)
      with (before := [Response StatusOK (Document {| Blocked := ["a.com"] |});
                       GetFailed "timeout"])
           (after := [Response 500 (Malformed "EOF")]).
    + reflexivity.
    + by repeat constructor.
Defined.

(** X9: in every snapshot the server can hold, each key present has the
    value [true] and is in lower case: the map never holds a [false]
    entry. *)
Theorem reachable_entries (ps : ProxyServer) :
  reachable ps →
  ∀ k v, blocklist ps !! k = Some v → v = true ∧ ToLower k = k.
Proof.
  induction 1 as [url|ps fr Hr IH]; intros k v.
  - simpl. by rewrite lookup_empty.
  - destruct (refreshOK fr) eqn:Hok.
    + destruct fr as [e|code [e|[L]]]; try done.
      simpl in Hok. apply Z.eqb_eq in Hok as ->.
      rewrite UpdateBlocklist_ok. cbn [fst blocklist].
      rewrite rebuild_lookup, lookup_empty.
      case_bool_decide as Hin; [|done]. intros [= <-]. split; [done|].
      apply list_elem_of_fmap in Hin as (x & -> & _). apply ToLower_idemp.
    + destruct (UpdateBlocklist_not_ok ps fr Hok) as [e ->]. apply IH.
Qed.

Lemma reachable_entries_witness :
  true = true ∧ ToLower "facebook.com" = "facebook.com".
Proof.
  apply (reachable_entries (installed ["FaceBook.com"])
           (reachable_update _ _ (reachable_new _)) "facebook.com" true).
  reflexivity.
Defined.

(** X10: when the first load of [main] fails and so does every refresh
    since, the warning is logged, the proxy serves with the empty
    blocklist, and every request is handed to [forwardRequest]. *)
Theorem main_failed_start_allows_all (first : FetchResult)
    (ticks : list FetchResult) (network : Request → RoundTrip) (r : Request) :
  refreshOK first = false →
  Forall (λ fr, refreshOK fr = false) ticks →
  (∃ e, MainWarning e ∈ (mainStart first).2) ∧
  mainServer first ticks = NewProxyServer "http://localhost:8000/policy" ∧
  calls (serve network (mainServer first ticks) r)
  = [CallIsBlocked (requestHost r) false; CallForwardRequest r].
Proof.
  intros Hfirst Hticks.
  assert (mainStart first
          = (NewProxyServer "http://localhost:8000/policy",
             (mainStart first).2)
          ∧ ∃ e, MainWarning e ∈ (mainStart first).2) as [Hs Hw].
  { unfold mainStart.
    destruct (UpdateBlocklist_not_ok
                (NewProxyServer "http://localhost:8000/policy") first Hfirst)
      as [e ->].
    split; [done|]. exists e. cbn [snd fmap list_fmap app].
    rewrite !elem_of_cons. tauto. }
  assert (mainServer first ticks
          = NewProxyServer "http://localhost:8000/policy") as Hm.
  { unfold mainServer. rewrite Hs. cbn [fst].
    by apply periodicUpdate_all_fail. }
  split_and!; [done|done|].
  rewrite Hm, serve_allowed by apply IsBlocked_new.
  by rewrite forwardRequest_calls.
Qed.

Lemma main_failed_start_allows_all_witness :
  (∃ e, MainWarning e ∈ (mainStart (GetFailed "connection refused")).2) ∧
  mainServer (GetFailed "connection refused") [Response 503 (Malformed "x")]
  = NewProxyServer "http://localhost:8000/policy" ∧
  calls (serve unreachable
           (mainServer (GetFailed "connection refused")
              [Response 503 (Malformed "x")])
           (getRequest "facebook.com"))
  = [CallIsBlocked (requestHost (getRequest "facebook.com")) false;
     CallForwardRequest (getRequest "facebook.com")].
Proof.
  apply (main_failed_start_allows_all (GetFailed "connection refused")
           [Response 503 (Malformed "x")] unreachable
           (getRequest "facebook.com")).
  - reflexivity.
  - by repeat constructor.
Defined.

(** ** Further properties of the dispatcher *)

Lemma foldl_HeaderAdd (key : string) (values : list string)
    (rw : ResponseWriter) :
  let rw' := foldl (λ acc v, HeaderAdd key v acc) rw values in
  statusCode rw' = statusCode rw ∧ written rw' = written rw ∧
  ∀ k, header rw' !! k =
       if decide (k = key)
       then match values with
            | [] => header rw !! key
            | _ => Some (default [] (header rw !! key) ++ values)
            end
       else header rw !! k.
Proof.
  revert rw. induction values as [|v values IH]; intros rw; cbn [foldl].
  - split_and!; [done|done|]. intros k. by case_decide; subst.
  - destruct (IH (HeaderAdd key v rw)) as (Hs & Hw & Hh).
    split_and!; [by rewrite Hs|by rewrite Hw|].
    intros k. rewrite Hh. cbn [HeaderAdd header]. case_decide as Hk.
    + rewrite lookup_insert_eq. cbn [default].
      destruct values; [done|]. unfold id. by rewrite <- app_assoc.
    + by rewrite lookup_insert_ne.
Qed.

Lemma copyHeader_spec (src : Header) (rw : ResponseWriter) :
  statusCode (copyHeader src rw) = statusCode rw ∧
  written (copyHeader src rw) = written rw ∧
  ∀ k, header (copyHeader src rw) !! k =
       match src !! k with
       | Some (v :: vs) => Some (default [] (header rw !! k) ++ v :: vs)
       | _ => header rw !! k
       end.
Proof.
  unfold copyHeader.
  apply (map_fold_weak_ind
           (λ (acc : ResponseWriter) (m : Header),
              statusCode acc = statusCode rw ∧ written acc = written rw ∧
              ∀ k, header acc !! k =
                   match m !! k with
                   | Some (v :: vs) =>
                       Some (default [] (header rw !! k) ++ v :: vs)
                   | _ => header rw !! k
                   end)).
  - split_and!; [done|done|]. intros k. by rewrite lookup_empty.
  - intros i x m acc Hi (Hs & Hw & Hh).
    destruct (foldl_HeaderAdd i x acc) as (Hs' & Hw' & Hh').
    split_and!; [by rewrite Hs'|by rewrite Hw'|].
    intros k. rewrite Hh'. case_decide as Hk.
    + subst k. rewrite lookup_insert_eq, Hh, Hi. by destruct x.
    + by rewrite lookup_insert_ne, Hh.
Qed.

(** X11: the status that [ServeHTTP] answers with is 403 when the host is
    blocked; otherwise it is 500 when the outbound request cannot be
    built, 502 when the upstream cannot be reached, and the upstream's
    own status when it answers with a final status code, from 200 to
    999. *)
Theorem ServeHTTP_status (network : Request → RoundTrip)
    (ps : ProxyServer) (r : Request) :
  (∀ code hdr body,
     network r = Upstream code hdr body → (200 ≤ code ≤ 999)%Z) →
  statusCode (w (serve network ps r)) =
  Some (if IsBlocked ps (requestHost r) then StatusForbidden
        else match network r with
             | NewRequestError => StatusInternalServerError
             | DoError => StatusBadGateway
             | Upstream code _ _ => code
             end).
Proof.
  intros _.
  destruct (serve_cases network ps r) as [(Hb & ->)|(Hb & ->)]; rewrite Hb.
  - reflexivity.
  - rewrite forwardRequest_writer.
    unfold forwardRequest, mbind, Handler_bind, called, onWriter, logPrintf.
    cbn [w].
    destruct (network r) as [| |code hdr body]; [done|done|].
    cbn [snd w Write WriteHeader statusCode].
    destruct (copyHeader_spec hdr newResponseWriter) as (-> & _ & _).
    reflexivity.
Qed.

Lemma ServeHTTP_status_witness :
  statusCode
    (w (serve (λ _, Upstream 301 ∅ "moved") facebookOnly
          (getRequest "example.com")))
  = Some 301%Z.
Proof.
  apply (ServeHTTP_status (λ _, Upstream 301 ∅ "moved") facebookOnly
           (getRequest "example.com")).
  intros code hdr body [= <- _ _]. lia.
Defined.

(** X12: when the host is allowed and the upstream answers with a final
    status code that allows a body (from 200 to 999, not 204 or 304), the
    client gets the upstream's status and body unchanged, and each header
    of the upstream with its values in their order. *)
Theorem ServeHTTP_relays_upstream (network : Request → RoundTrip)
    (ps : ProxyServer) (r : Request)
    (code : Z) (hdr : Header) (body : string) :
  IsBlocked ps (requestHost r) = false →
  network r = Upstream code hdr body →
  (200 ≤ code ≤ 999)%Z → code ≠ 204%Z → code ≠ 304%Z →
  let rw := w (serve network ps r) in
  statusCode rw = Some code ∧
  written rw = body ∧
  ∀ k, header rw !! k = match hdr !! k with
                        | Some [] => None
                        | values => values
                        end.
Proof.
  intros Hb Hn _ _ _ rw. subst rw.
  rewrite (serve_allowed network ps r Hb), forwardRequest_writer.
  unfold forwardRequest, mbind, Handler_bind, called, onWriter. cbn [w].
  rewrite Hn. cbn [snd w Write WriteHeader statusCode written header].
  destruct (copyHeader_spec hdr newResponseWriter) as (-> & -> & Hh).
  split_and!; [done|done|].
  intros k. rewrite Hh. cbn [newResponseWriter header].
  rewrite lookup_empty. by destruct (hdr !! k) as [[|v vs]|].
Qed.

Lemma ServeHTTP_relays_upstream_witness :
  let network := λ _ : Request,
    Upstream 302 {[ "Location" := ["http://example.org/"];
                    "Set-Cookie" := ["a=1"; "b=2"] ]} "moved" in
  let rw := w (serve network facebookOnly (getRequest "example.com")) in
  statusCode rw = Some 302%Z ∧
  written rw = "moved" ∧
  ∀ k, header rw !! k =
       match ({[ "Location" := ["http://example.org/"];
                 "Set-Cookie" := ["a=1"; "b=2"] ]} : Header) !! k with
       | Some [] => None
       | values => values
       end.
Proof.
  intros network.
  apply (ServeHTTP_relays_upstream network facebookOnly
           (getRequest "example.com")); try reflexivity; lia.
Defined.

(** ** Properties of the device posture agent *)

Section ReporterFacts.

Variable world : Z → SendOutcome.

Implicit Types (events : list AgentEvent) (attempt k : Z) (n : nat).

Lemma attemptsMade_app events events' :
  attemptsMade (events ++ events') = attemptsMade events ++ attemptsMade events'.
Proof. apply omap_app. Qed.

Lemma secondsSlept_app events events' :
  secondsSlept (events ++ events')
  = (secondsSlept events + secondsSlept events')%Z.
Proof.
  unfold secondsSlept. rewrite omap_app.
  induction (omap _ events) as [|x l IH]; simpl; [done|]. rewrite IH. lia.
Qed.

Lemma SendReport_quiet (o : SendOutcome) :
  attemptsMade (SendReport o).2 = [] ∧ secondsSlept (SendReport o).2 = 0%Z.
Proof.
  destruct o as [e|e|e|e|code body]; try done.
  simpl. by destruct (code =? StatusOK)%Z.
Qed.

(** One turn of the loop whose call fails. *)
Lemma retryLoop_step_fail maxR attempt n last e :
  (SendReport (world attempt)).1 = Some e →
  let res := retryLoop world maxR attempt (S n) last in
  let rest := retryLoop world maxR (attempt + 1) n (Some e) in
  res.1 = rest.1 ∧
  attemptsMade res.2 = attempt :: attemptsMade rest.2 ∧
  secondsSlept res.2
  = ((if (attempt <? maxR)%Z then attempt * 2 else 0) + secondsSlept rest.2)%Z.
Proof.
  intros He. cbn [retryLoop].
  destruct (SendReport_quiet (world attempt)) as [Ha Hs].
  destruct (SendReport (world attempt)) as [err printed]. simpl in He, Ha, Hs.
  subst err.
  destruct (retryLoop world maxR (attempt + 1) n (Some e)) as [r later].
  cbn [fst snd]. split_and!; [done| |].
  - change (EvSendReport attempt :: ?l) with ([EvSendReport attempt] ++ l).
    rewrite !attemptsMade_app, Ha.
    by destruct (attempt <? maxR)%Z.
  - change (EvSendReport attempt :: ?l) with ([EvSendReport attempt] ++ l).
    rewrite !secondsSlept_app, Hs.
    destruct (attempt <? maxR)%Z; unfold secondsSlept; simpl; lia.
Qed.

(** One turn of the loop whose call succeeds. *)
Lemma retryLoop_step_ok maxR attempt n last :
  (SendReport (world attempt)).1 = None →
  let res := retryLoop world maxR attempt (S n) last in
  res.1 = None ∧ attemptsMade res.2 = [attempt] ∧ secondsSlept res.2 = 0%Z.
Proof.
  intros He. cbn [retryLoop].
  destruct (SendReport_quiet (world attempt)) as [Ha Hs].
  destruct (SendReport (world attempt)) as [err printed]. simpl in He, Ha, Hs.
  subst err. cbn [fst snd]. split_and!; [done| |].
  - change (EvSendReport attempt :: ?l) with ([EvSendReport attempt] ++ l).
    by rewrite attemptsMade_app, Ha.
  - change (EvSendReport attempt :: ?l) with ([EvSendReport attempt] ++ l).
    by rewrite secondsSlept_app, Hs.
Qed.

Lemma retryLoop_first_success maxR n attempt k last :
  (attempt ≤ k ≤ maxR)%Z →
  (Z.to_nat (k - attempt) < n)%nat →
  (∀ j, (attempt ≤ j < k)%Z → (SendReport (world j)).1 ≠ None) →
  (SendReport (world k)).1 = None →
  let res := retryLoop world maxR attempt n last in
  res.1 = None ∧
  attemptsMade res.2 = seqZ attempt (k - attempt + 1) ∧
  secondsSlept res.2 = (k * (k - 1) - attempt * (attempt - 1))%Z.
Proof.
  revert attempt last. induction n as [|n IH]; intros attempt last Hk Hn Hf Hok;
    [lia|].
  destruct (decide (attempt = k)) as [->|Hne].
  - destruct (retryLoop_step_ok maxR k n last Hok) as (H1 & H2 & H3).
    cbv zeta. rewrite H1, H2, H3.
    replace (k - k + 1)%Z with 1%Z by lia. split_and!; [done|done|lia].
  - destruct (SendReport (world attempt)).1 as [e|] eqn:He;
      [|by destruct (Hf attempt); [lia|]].
    destruct (retryLoop_step_fail maxR attempt n last e He) as (H1 & H2 & H3).
    destruct (IH (attempt + 1)%Z (Some e)) as (I1 & I2 & I3);
      [lia|lia|by intros j ?; apply Hf; lia|done|].
    cbv zeta. rewrite H1, H2, H3, I1, I2, I3.
    assert ((attempt <? maxR)%Z = true) as -> by (apply Z.ltb_lt; lia).
    split_and!; [done| |lia].
    replace (k - attempt + 1)%Z with (Z.succ (k - (attempt + 1) + 1)) by lia.
    rewrite (seqZ_cons attempt) by lia. rewrite Z.pred_succ.
    by replace (Z.succ attempt) with (attempt + 1)%Z by lia.
Qed.

Lemma retryLoop_all_fail maxR n attempt last :
  (Z.of_nat n = maxR - attempt + 1)%Z → (1 ≤ n)%nat →
  (∀ j, (attempt ≤ j ≤ maxR)%Z → (SendReport (world j)).1 ≠ None) →
  let res := retryLoop world maxR attempt n last in
  res.1 = Some (ErrFailedAfter maxR (SendReport (world maxR)).1) ∧
  attemptsMade res.2 = seqZ attempt (Z.of_nat n) ∧
  secondsSlept res.2 = (maxR * (maxR - 1) - attempt * (attempt - 1))%Z.
Proof.
  revert attempt last. induction n as [|n IH]; intros attempt last Hn H1n Hf;
    [lia|].
  destruct (SendReport (world attempt)).1 as [e|] eqn:He;
    [|by destruct (Hf attempt); [lia|]].
  destruct (retryLoop_step_fail maxR attempt n last e He) as (H1 & H2 & H3).
  cbv zeta. rewrite H1, H2, H3.
  destruct n as [|n].
  - assert (attempt = maxR) as -> by lia. cbn [retryLoop fst snd].
    rewrite He, Z.ltb_irrefl. split_and!; [done|done|].
    unfold secondsSlept. simpl. lia.
  - destruct (IH (attempt + 1)%Z (Some e)) as (I1 & I2 & I3);
      [lia|lia|by intros j ?; apply Hf; lia|].
    rewrite I1, I2, I3.
    assert ((attempt <? maxR)%Z = true) as -> by (apply Z.ltb_lt; lia).
    split_and!; [done| |lia].
    replace (Z.of_nat (S (S n))) with (Z.succ (Z.of_nat (S n))) by lia.
    rewrite (seqZ_cons attempt) by lia. rewrite Z.pred_succ.
    by replace (Z.succ attempt) with (attempt + 1)%Z by lia.
Qed.

(** However the calls go, the loop calls [SendReport] at most once per
    iteration and sleeps at most [maxR * (maxR - 1)] seconds. *)
Lemma retryLoop_bounds maxR n attempt last :
  (1 ≤ attempt)%Z → (0 ≤ maxR)%Z →
  let res := retryLoop world maxR attempt n last in
  (length (attemptsMade res.2) ≤ n)%nat ∧
  (0 ≤ secondsSlept res.2
   ≤ Z.max 0 (maxR * (maxR - 1) - attempt * (attempt - 1)))%Z.
Proof.
  revert attempt last. induction n as [|n IH]; intros attempt last Ha Hm.
  - cbn. split; [done|]. unfold secondsSlept. simpl. lia.
  - destruct (SendReport (world attempt)).1 as [e|] eqn:He.
    + destruct (retryLoop_step_fail maxR attempt n last e He) as (_ & H2 & H3).
      destruct (IH (attempt + 1)%Z (Some e)) as (I1 & I2); [lia|lia|].
      cbv zeta in *. rewrite H2, H3. split; [simpl; lia|].
      destruct (attempt <? maxR)%Z eqn:El.
      * apply Z.ltb_lt in El. nia.
      * apply Z.ltb_ge in El. nia.
    + destruct (retryLoop_step_ok maxR attempt n last He) as (_ & H2 & H3).
      cbv zeta. rewrite H2, H3. split; [simpl; lia|lia].
Qed.

Lemma SendReport_fail_quiet (o : SendOutcome) (e : sendError) :
  (SendReport o).1 = Some e → (SendReport o).2 = [].
Proof.
  destruct o as [x|x|x|x|code body]; try done.
  simpl. by destruct (code =? StatusOK)%Z.
Qed.

(** One turn of the loop whose call fails before the last attempt. *)
Lemma retryLoop_turn maxR attempt n last :
  (attempt < maxR)%Z →
  (SendReport (world attempt)).1 ≠ None →
  retryLoop world maxR attempt (S n) last
  = ((retryLoop world maxR (attempt + 1) n (SendReport (world attempt)).1).1,
     failedTurn world maxR attempt
       ++ (retryLoop world maxR (attempt + 1) n
             (SendReport (world attempt)).1).2).
Proof.
  intros Hlt Hf. cbn [retryLoop]. unfold failedTurn.
  pose proof (SendReport_fail_quiet (world attempt)) as Hq.
  destruct (SendReport (world attempt)) as [[e|] printed]; [|done].
  cbn [fst snd] in *. rewrite (Hq e eq_refl).
  apply Z.ltb_lt in Hlt. rewrite Hlt.
  by destruct (retryLoop world maxR (attempt + 1) n (Some e)).
Qed.

Lemma retryLoop_trace_success maxR n attempt k last :
  (attempt ≤ k ≤ maxR)%Z →
  (Z.to_nat (k - attempt) < n)%nat →
  (∀ j, (attempt ≤ j < k)%Z → (SendReport (world j)).1 ≠ None) →
  (SendReport (world k)).1 = None →
  retryLoop world maxR attempt n last
  = (None,
     (seqZ attempt (k - attempt) ≫= failedTurn world maxR)
       ++ EvSendReport k :: (SendReport (world k)).2).
Proof.
  revert attempt last. induction n as [|n IH]; intros attempt last Hk Hn Hf Hok;
    [lia|].
  destruct (decide (attempt = k)) as [->|Hne].
  - rewrite Z.sub_diag. cbn [retryLoop].
    destruct (SendReport (world k)) as [err printed]. simpl in Hok.
    by subst err.
  - rewrite retryLoop_turn by (lia || (apply Hf; lia)).
    rewrite (IH (attempt + 1)%Z) by (lia || done || (intros; apply Hf; lia)).
    cbn [fst snd]. f_equal.
    rewrite (seqZ_cons attempt) by lia.
    replace (Z.succ attempt) with (attempt + 1)%Z by lia.
    replace (Z.pred (k - attempt)) with (k - (attempt + 1))%Z by lia.
    cbn [mbind list_bind]. by rewrite <- app_assoc.
Qed.

Lemma retryLoop_trace_all_fail maxR n attempt last :
  (Z.of_nat n = maxR - attempt + 1)%Z → (1 ≤ n)%nat →
  (∀ j, (attempt ≤ j ≤ maxR)%Z → (SendReport (world j)).1 ≠ None) →
  retryLoop world maxR attempt n last
  = (Some (ErrFailedAfter maxR (SendReport (world maxR)).1),
     (seqZ attempt (maxR - attempt) ≫= failedTurn world maxR)
       ++ [EvSendReport maxR]).
Proof.
  revert attempt last. induction n as [|n IH]; intros attempt last Hn H1n Hf;
    [lia|].
  destruct n as [|n].
  - assert (attempt = maxR) as -> by lia. rewrite Z.sub_diag.
    cbn [retryLoop].
    pose proof (SendReport_fail_quiet (world maxR)) as Hq.
    pose proof (Hf maxR ltac:(lia)) as Hm.
    destruct (SendReport (world maxR)) as [[e|] printed]; [|done].
    cbn [fst snd] in *. rewrite (Hq e eq_refl).
    by rewrite Z.ltb_irrefl.
  - rewrite retryLoop_turn by (lia || (apply Hf; lia)).
    rewrite (IH (attempt + 1)%Z) by (lia || (intros; apply Hf; lia)).
    cbn [fst snd]. f_equal.
    rewrite (seqZ_cons attempt) by lia.
    replace (Z.succ attempt) with (attempt + 1)%Z by lia.
    replace (Z.pred (maxR - attempt)) with (maxR - (attempt + 1))%Z by lia.
    cbn [mbind list_bind]. by rewrite <- app_assoc.
Qed.

End ReporterFacts.

(** X14: when the call of attempt [k] is the first that succeeds, with
    [k] at most [maxRetries] and [maxRetries] in the range where the
    pause is exact, [SendReportWithRetry] returns no error and leaves
    this trace: for each attempt [j] before [k] the call, the two lines
    and a pause of [2 * j] seconds, then the call of attempt [k] and its
    line. So [SendReport] is called for the attempts 1 to [k] and no
    more, and the pauses add up to [k * (k - 1)] seconds. *)
Theorem SendReportWithRetry_first_success (world : Z → SendOutcome)
    (maxR k : Z) :
  (1 ≤ k ≤ maxR)%Z →
  (maxR ≤ maxExactAttempt)%Z →
  (∀ j, (1 ≤ j < k)%Z → (SendReport (world j)).1 ≠ None) →
  (SendReport (world k)).1 = None →
  let res := SendReportWithRetry world maxR in
  res.1 = None ∧
  res.2 = (seqZ 1 (k - 1) ≫= failedTurn world maxR)
            ++ EvSendReport k :: (SendReport (world k)).2 ∧
  attemptsMade res.2 = seqZ 1 k ∧
  secondsSlept res.2 = (k * (k - 1))%Z.
Proof.
  intros Hk _ Hf Hok.
  destruct (retryLoop_first_success world maxR (Z.to_nat maxR) 1 k None)
    as (H1 & H2 & H3); [lia|lia|done|done|].
  pose proof (retryLoop_trace_success world maxR (Z.to_nat maxR) 1 k None)
    as Ht.
  unfold SendReportWithRetry. cbv zeta. rewrite H1, H2, H3.
  split_and!; [done| |f_equal; lia|lia].
  by rewrite Ht by (lia || done).
Qed.

Lemma SendReportWithRetry_first_success_witness :
  let res := SendReportWithRetry thirdTimeLucky 3 in
  res.1 = None ∧
  res.2 = (seqZ 1 (3 - 1) ≫= failedTurn thirdTimeLucky 3)
            ++ EvSendReport 3 :: (SendReport (thirdTimeLucky 3)).2 ∧
  attemptsMade res.2 = seqZ 1 3 ∧
  secondsSlept res.2 = (3 * (3 - 1))%Z.
Proof.
  apply (SendReportWithRetry_first_success thirdTimeLucky 3 3).
  - lia.
  - unfold maxExactAttempt. lia.
  - intros j Hj. assert (j = 1 ∨ j = 2)%Z as [-> | ->] by lia; done.
  - reflexivity.
Defined.

(** X15: when every call up to [maxRetries] fails, with [maxRetries] in
    the range where the pause is exact, [SendReportWithRetry] returns an
    error that names [maxRetries] and wraps the error of the last call,
    and leaves this trace: for each attempt [j] before the last the call,
    the two lines and a pause of [2 * j] seconds, then the call of the
    last attempt and nothing after it, no line and no pause. So
    [SendReport] is called exactly [maxRetries] times and the pauses add
    up to [maxRetries * (maxRetries - 1)] seconds. *)
Theorem SendReportWithRetry_all_fail (world : Z → SendOutcome) (maxR : Z) :
  (1 ≤ maxR ≤ maxExactAttempt)%Z →
  (∀ j, (1 ≤ j ≤ maxR)%Z → (SendReport (world j)).1 ≠ None) →
  let res := SendReportWithRetry world maxR in
  res.1 = Some (ErrFailedAfter maxR (SendReport (world maxR)).1) ∧
  res.2 = (seqZ 1 (maxR - 1) ≫= failedTurn world maxR)
            ++ [EvSendReport maxR] ∧
  attemptsMade res.2 = seqZ 1 maxR ∧
  secondsSlept res.2 = (maxR * (maxR - 1))%Z.
Proof.
  intros Hm Hf.
  destruct (retryLoop_all_fail world maxR (Z.to_nat maxR) 1 None)
    as (H1 & H2 & H3); [lia|lia|done|].
  pose proof (retryLoop_trace_all_fail world maxR (Z.to_nat maxR) 1 None)
    as Ht.
  unfold SendReportWithRetry. cbv zeta. rewrite H1, H2, H3.
  split_and!; [done| |f_equal; lia|lia].
  by rewrite Ht by (lia || done).
Qed.

Lemma SendReportWithRetry_all_fail_witness :
  let res := SendReportWithRetry alwaysDown 3 in
  res.1 = Some (ErrFailedAfter 3 (SendReport (alwaysDown 3)).1) ∧
  res.2 = (seqZ 1 (3 - 1) ≫= failedTurn alwaysDown 3)
            ++ [EvSendReport 3] ∧
  attemptsMade res.2 = seqZ 1 3 ∧
  secondsSlept res.2 = (3 * (3 - 1))%Z.
Proof.
  apply (SendReportWithRetry_all_fail alwaysDown 3);
    [unfold maxExactAttempt; lia|done].
Defined.

(** X16: with [maxRetries] zero or negative, [SendReportWithRetry] makes
    no call at all and still returns an error, which wraps a [nil]
    error. *)
Theorem SendReportWithRetry_no_attempts (world : Z → SendOutcome) (maxR : Z) :
  (maxR ≤ 0)%Z →
  SendReportWithRetry world maxR = (Some (ErrFailedAfter maxR None), []).
Proof.
  intros Hm. unfold SendReportWithRetry.
  by replace (Z.to_nat maxR) with 0%nat by lia.
Qed.

Lemma SendReportWithRetry_no_attempts_witness :
  SendReportWithRetry thirdTimeLucky 0 = (Some (ErrFailedAfter 0 None), []).
Proof. apply SendReportWithRetry_no_attempts. lia. Defined.

(** X17: one round of [collectAndReport] calls [SendReport] at most three
    times and sleeps at most six seconds, whatever the collector does;
    when collecting failed, or in dry-run mode, it calls [SendReport] not
    at all. *)
Theorem collectAndReport_bounds (collectErr : option collectError)
    (dryRun : bool) (world : Z → SendOutcome) :
  let events := collectAndReport collectErr dryRun world in
  (length (attemptsMade events) ≤ 3)%nat ∧
  (0 ≤ secondsSlept events ≤ 6)%Z ∧
  (collectErr ≠ None ∨ dryRun = true →
   attemptsMade events = [] ∧ secondsSlept events = 0%Z).
Proof.
  intros events. subst events. unfold collectAndReport.
  destruct collectErr as [e|];
    [split_and!; [cbn; lia|by cbn|by cbn|done]|].
  destruct dryRun;
    [split_and!; [cbn; lia|by cbn|by cbn|done]|].
  pose proof (retryLoop_bounds world maxRetries 3 1 None) as Hb.
  unfold SendReportWithRetry. change (Z.to_nat maxRetries) with 3%nat.
  destruct (retryLoop world maxRetries 1 3 None) as [err events].
  destruct Hb as [Ha Hs]; [done|done|]. cbn [snd] in Ha, Hs.
  change (EvPrintCollecting :: EvPrintStatus :: ?l)
    with ([EvPrintCollecting; EvPrintStatus] ++ l).
  rewrite !attemptsMade_app, !secondsSlept_app, !length_app.
  assert (attemptsMade (match err with
                        | Some e => [EvLogSendFailed e]
                        | None => []
                        end) = [] ∧
          secondsSlept (match err with
                        | Some e => [EvLogSendFailed e]
                        | None => []
                        end) = 0%Z) as [-> ->] by (by destruct err).
  change (secondsSlept [EvPrintCollecting; EvPrintStatus]) with 0%Z.
  change (secondsSlept [EvPrintSeparator]) with 0%Z.
  change (Z.max 0 (maxRetries * (maxRetries - 1) - 1 * (1 - 1))) with 6%Z in Hs.
  simpl. split_and!; [lia|lia|lia|].
  intros [?|?]; done.
Qed.

Lemma collectAndReport_bounds_witness :
  attemptsMade (collectAndReport None true alwaysDown) = [] ∧
  secondsSlept (collectAndReport None true alwaysDown) = 0%Z.
Proof.
  apply (collectAndReport_bounds None true alwaysDown). by right.
Defined.

(** X18: [GetLocalIP] returns the text of the first address that is an
    IP network address, not a loopback one, and of version 4; it returns
    the error for no address found exactly when the list has no such
    address. *)
Theorem GetLocalIP_first_usable (addrs : list Addr) :
  match GetLocalIP (inr addrs) with
  | (ip, None) =>
      ∃ before a after,
        addrs = before ++ a :: after ∧
        Forall (λ b, usableAddr b = false) before ∧
        usableAddr a = true ∧ ip = addrString a
  | (ip, Some e) =>
      e = ErrNoLocalIP ∧ ip = EmptyString ∧
      Forall (λ b, usableAddr b = false) addrs
  end.
Proof.
  unfold GetLocalIP.
  induction addrs as [|a addrs IH]; [by simpl|].
  destruct a as [[] [] s|]; cbn [firstLocalIP negb].
  1, 2, 4, 5:
    destruct (firstLocalIP addrs) as [ip|];
    [destruct IH as (before & a & after & -> & Hb & Ha & ->);
     eexists (_ :: before), a, after; split_and!; [done| |done|done];
     by constructor
    |destruct IH as (_ & _ & Hall); split_and!; [done|done|];
     by constructor].
  by exists [], (IPNet false true s), addrs.
Qed.
